(** * Derived statistics of the dashboard: filter, sort, paginate, aggregate

    A shallow embedding of [src/store/selectors/statisticsSelectors.ts].
    Every selector there is built by [createSelector]: a memoised wrapper
    around a pure result function.  Memoisation does not change what a pure
    function returns, so each selector is embedded as its result function,
    under the selector's own name, applied to the values of its input
    selectors.

    The file has two parts: the embedding (values of the host language first,
    then the selectors), and the properties proved about it. *)

From Stdlib Require Import ZArith NArith List Bool Lia String Floats.
From Stdlib Require Import Sorting.Sorted Sorting.Permutation.
From Stdlib Require Strings.Byte.
Import ListNotations.
Open Scope Z_scope.

(* ================================================================= *)
(** * Part I: the embedding *)
(* ================================================================= *)

(** ** Strings

    A string of the host language is a sequence of UTF-16 code units. *)
Module JsString.

Definition code_unit := N.
Definition jsstring := list code_unit.

(** ToBoolean on a string: only the empty string is falsy. *)
Definition truthy (s : jsstring) : bool :=
  match s with [] => false | _ :: _ => true end.

(** White space and line terminators, the code units that
    [String.prototype.trim] strips: TAB, LF, VT, FF, CR, SP, NBSP,
    U+1680, U+2000..U+200A, LS, PS, U+202F, U+205F, U+3000, U+FEFF. *)
Definition isWhiteSpace (c : code_unit) : bool :=
  ((9 <=? c) && (c <=? 13) || (c =? 32) || (c =? 160) || (c =? 5760)
   || (8192 <=? c) && (c <=? 8202) || (c =? 8232) || (c =? 8233)
   || (c =? 8239) || (c =? 8287) || (c =? 12288) || (c =? 65279))%N.

Fixpoint trimStart (s : jsstring) : jsstring :=
  match s with
  | [] => []
  | c :: t => if isWhiteSpace c then trimStart t else s
  end.

Definition trimEnd (s : jsstring) : jsstring := rev (trimStart (rev s)).

(** [String.prototype.trim] *)
Definition trim (s : jsstring) : jsstring := trimEnd (trimStart s).

(** [startsWith q s]: [q] is found in [s] at position 0. *)
Fixpoint startsWith (q s : jsstring) : bool :=
  match q, s with
  | [], _ => true
  | _ :: _, [] => false
  | a :: q', b :: s' => (a =? b)%N && startsWith q' s'
  end.

(** [String.prototype.includes]: [q] is found in [s] at some position. *)
Fixpoint includes (s q : jsstring) : bool :=
  startsWith q s ||
  match s with
  | [] => false
  | _ :: s' => includes s' q
  end.

End JsString.
Export JsString.

(** ** Arrays *)
Module JsArray.

Section Sort.
Context {A : Type}.
(** The comparator handed to [sort]; its sign is all that is looked at. *)
Variable comparefn : A -> A -> Z.

(** [insert x l] puts [x] in front of the first element it does not
    follow. *)
Fixpoint insert (x : A) (l : list A) : list A :=
  match l with
  | [] => [x]
  | y :: t => if comparefn x y <=? 0 then x :: l else y :: insert x t
  end.

(** [Array.prototype.sort].  The language fixes its result, for a
    consistent comparator, as the one stable arrangement in comparator
    order (lemma [sort_unique] below proves there is just one), and
    leaves the algorithm to the engine.  The embedding takes stable
    insertion, feeding the elements from the last to the first so that
    among equals the earlier one ends up in front. *)
Definition sort (l : list A) : list A := fold_right insert [] l.
End Sort.

(** [Array.prototype.map] with the index argument. *)
Fixpoint mapi_from {A B : Type} (f : A -> Z -> B) (i : Z) (l : list A) : list B :=
  match l with
  | [] => []
  | x :: t => f x i :: mapi_from f (i + 1) t
  end.

Definition mapi {A B : Type} (f : A -> Z -> B) (l : list A) : list B :=
  mapi_from f 0 l.

End JsArray.

(** ** Numbers of the pagination

    [page] and [pageSize] are of type [number].  The embedding covers the
    integral numbers of magnitude below 2^53, on which the arithmetic of the
    host language is exact, together with [Infinity], [-Infinity] and [NaN].
    Negative zero is not a value of the embedding: as an input it is outside
    it (a page size of -0 divides to the opposite infinity), and where the
    arithmetic below can produce one (a product or a quotient of a zero and
    a negative number) it only becomes an argument of [slice] or of
    [Math.max] against 1, which treat the two zeros alike.  Numbers with a
    fractional part are outside the embedding too. *)
Module JsNumber.

Inductive number : Type :=
| Int (z : Z)
| PosInf
| NegInf
| NaN.

(** [Math.max] *)
Definition Math_max (a b : number) : number :=
  match a, b with
  | NaN, _ | _, NaN => NaN
  | PosInf, _ | _, PosInf => PosInf
  | NegInf, x | x, NegInf => x
  | Int x, Int y => Int (Z.max x y)
  end.

(** [Math.min] *)
Definition Math_min (a b : number) : number :=
  match a, b with
  | NaN, _ | _, NaN => NaN
  | NegInf, _ | _, NegInf => NegInf
  | PosInf, x | x, PosInf => x
  | Int x, Int y => Int (Z.min x y)
  end.

(** [a - b] *)
Definition sub (a b : number) : number :=
  match a, b with
  | NaN, _ | _, NaN => NaN
  | PosInf, PosInf | NegInf, NegInf => NaN
  | PosInf, _ | _, NegInf => PosInf
  | NegInf, _ | _, PosInf => NegInf
  | Int x, Int y => Int (x - y)
  end.

(** The sign of a number that is not [NaN]. *)
Definition sgn (a : number) : Z :=
  match a with
  | Int z => Z.sgn z
  | PosInf => 1
  | NegInf => -1
  | NaN => 0
  end.

(** [a * b]: an infinity times zero is [NaN]. *)
Definition mul (a b : number) : number :=
  match a, b with
  | NaN, _ | _, NaN => NaN
  | Int x, Int y => Int (x * y)
  | _, _ =>
      match sgn a * sgn b with
      | 0 => NaN
      | Zpos _ => PosInf
      | Zneg _ => NegInf
      end
  end.

(** [Math.ceil(a / b)] for an integer [a], here the length of an array.  The
    quotient itself need not be integral, so the division and the rounding
    up are embedded in one step; for a dividend below 2^53 the rounding of
    the quotient to a double never reaches or leaves an integer, so the
    result is the exact ceiling.  Division by zero gives an infinity, and
    [0 / 0] is [NaN]. *)
Definition Math_ceil_div (a : Z) (b : number) : number :=
  match b with
  | NaN => NaN
  | PosInf | NegInf => Int 0
  | Int 0 => if a =? 0 then NaN else if 0 <? a then PosInf else NegInf
  | Int n => Int (- ((- a) / n))
  end.

(** The index a relative position argument of [slice] denotes in an array
    of length [len]: ToIntegerOrInfinity, then counting from the end when
    negative, then clamping into [0, len]. *)
Definition relativeIndex (len : Z) (i : number) : Z :=
  match i with
  | NaN => 0
  | NegInf => 0
  | PosInf => len
  | Int z => if z <? 0 then Z.max (len + z) 0 else Z.min z len
  end.

(** [Array.prototype.slice(start, end)] *)
Definition slice {A : Type} (l : list A) (start end_ : number) : list A :=
  let len := Z.of_nat (List.length l) in
  let k := relativeIndex len start in
  let final := relativeIndex len end_ in
  firstn (Z.to_nat (final - k)) (skipn (Z.to_nat k) l).

End JsNumber.
Export JsNumber.

(** ** Numbers of the aggregates

    The sums and the two rates of the aggregate selectors are computed on
    binary64 numbers themselves: on the primitive floats, whose addition,
    multiplication and division are those of the host language.  Exact
    values are read off a float through [Prim2SF]. *)
Module JsDouble.

(** The double nearest to an integer (the integer itself below 2^53): the
    number a count of a record is. *)
Definition of_Z (z : Z) : float := SF2Prim (binary_normalize prec emax z 0 false).

(** ToBoolean on a number: zero of either sign and NaN are falsy. *)
Definition truthy (x : float) : bool := negb (is_zero x || is_nan x).

(** The value [m * 2^e] of a finite double as a fraction. *)
Definition fraction (m : positive) (e : Z) : Z * Z :=
  if 0 <=? e then (Zpos m * 2 ^ e, 1) else (Zpos m, 2 ^ (- e)).

(** The integer nearest to [p / q] for [q > 0]; of two equally near ones
    the larger. *)
Definition nearest (p q : Z) : Z := (2 * p + q) / (2 * q).

Definition zero (neg : bool) : float := if neg then (-0)%float else 0%float.

(** [Math.round]: the nearest integer, a tie going towards +Infinity; a
    result of zero keeps the sign of the argument; a number that is
    integral already (every one without fraction bits, [0 <= e]), zeros,
    infinities and NaN are returned as they are. *)
Definition Math_round (x : float) : float :=
  match Prim2SF x with
  | S754_finite s m e =>
      if 0 <=? e then x
      else
        let '(p, q) := fraction m e in
        let n := nearest (if s then - p else p) q in
        if n =? 0 then zero s else of_Z n
  | _ => x
  end.

(** What [toFixed(2)] writes: either the digits of an integer [n], read as
    [n / 100] with an optional minus sign, or the plain rendering of the
    number (not finite, or 10^21 and above in magnitude). *)
Inductive fixed : Type :=
| Hundredths (neg : bool) (n : Z)
| Plain (x : float).

(** [Number.prototype.toFixed] with two fraction digits: on the magnitude
    of the number, the integer [n] with [n / 100] nearest to it, the larger
    one of two. *)
Definition toFixed2 (x : float) : fixed :=
  match Prim2SF x with
  | S754_finite s m e =>
      let '(p, q) := fraction m e in
      if 10 ^ 21 * q <=? p then Plain x else Hundredths s (nearest (100 * p) q)
  | S754_zero _ => Hundredths false 0
  | _ => Plain x
  end.

(** Unary [+] on what [toFixed] wrote: the double nearest to the decimal. *)
Definition ToNumber (d : fixed) : float :=
  match d with
  | Plain x => x
  | Hundredths neg (Zpos n) =>
      SF2Prim (SFdiv prec emax (S754_finite neg n 0) (S754_finite false 100 0))
  | Hundredths neg _ => zero neg
  end.

End JsDouble.

(** ** Records *)

(** Modelled from the spec: the declaration of [UserStatistic]
    ([shared/types/types] is not among the sources).  The spec's record has
    an identifier, a display name, an optional avatar reference and three
    task counts; the field names are those the selectors and the table read
    ([u.id], [u.name], [u.ava], [u.completedTasks], [u.inWorkTasks],
    [u.failedTasks]).  Counts are integers; the spec's data model further
    wants them non-negative, which is the predicate [counts_nonneg] below and
    appears as a hypothesis only where a property depends on it.  Where a
    count is added up or divided it is the double [JsDouble.of_Z] of the
    field. *)
Record UserStatistic : Type := {
  id : Z;
  name : jsstring;
  ava : option jsstring;
  completedTasks : Z;
  inWorkTasks : Z;
  failedTasks : Z
}.

Definition counts_nonneg (u : UserStatistic) : Prop :=
  0 <= completedTasks u /\ 0 <= inWorkTasks u /\ 0 <= failedTasks u.

(** The result of the pagination selector. *)
Module Page.
Record t : Type := {
  data : list UserStatistic;
  total : Z;
  totalPages : number;
  currentPage : number
}.
End Page.

(** The accumulator of [selectGlobalTotals]. *)
Module Totals.
Record t : Type := { completed : float; inWork : float; failed : float }.
End Totals.

(** A row of the leaderboard. *)
Module Leader.
Record t : Type := { place : Z; id : Z; name : jsstring; completed : Z }.
End Leader.

(** The result of [selectGlobalKpis]. *)
Module Kpis.
Record t : Type := {
  users : Z;
  total : float;
  completed : float;
  inWork : float;
  failed : float;
  doneRate : float;
  avgCompletedPerUser : float;
  top : option UserStatistic;
  leaderboard : list Leader.t
}.
End Kpis.

(** [x || y] on numbers: [y] when [x] is zero. *)
Definition or_else (x y : Z) : Z := if x =? 0 then y else x.

(** ** The selectors *)
Section Selectors.

(** [String.prototype.toLowerCase], which goes by the Unicode tables of the
    engine. *)
Variable toLowerCase : jsstring -> jsstring.

(** [new Intl.Collator("ru").compare]: negative, zero or positive. *)
Variable collator_compare : jsstring -> jsstring -> Z.

Definition isActive (u : UserStatistic) : bool :=
  completedTasks u + inWorkTasks u + failedTasks u >? 0.

Definition makeSelectFiltered
    (global : list UserStatistic) (query : jsstring) (onlyActive : bool)
    : list UserStatistic :=
  let q := toLowerCase (trim query) in
  let arr :=
    if truthy q
    then filter (fun u => includes (toLowerCase (name u)) q) global
    else global in
  if onlyActive then filter isActive arr else arr.

(** The comparators of the switch. *)
Definition byCompletedDesc (a b : UserStatistic) : Z :=
  or_else (completedTasks b - completedTasks a) (collator_compare (name a) (name b)).

Definition byFailedDesc (a b : UserStatistic) : Z :=
  or_else (failedTasks b - failedTasks a) (collator_compare (name a) (name b)).

Definition byInWorkDesc (a b : UserStatistic) : Z :=
  or_else (inWorkTasks b - inWorkTasks a) (collator_compare (name a) (name b)).

Definition byNameAsc (a b : UserStatistic) : Z :=
  collator_compare (name a) (name b).

(** [sortMode] is a string at run time (it is read back from local
    storage under a type cast), so any string can reach the switch. *)
Definition makeSelectSorted
    (filtered : list UserStatistic) (sortMode : string) : list UserStatistic :=
  let arr := filtered in
  if String.eqb sortMode "completedDesc" then JsArray.sort byCompletedDesc arr
  else if String.eqb sortMode "failedDesc" then JsArray.sort byFailedDesc arr
  else if String.eqb sortMode "inWorkDesc" then JsArray.sort byInWorkDesc arr
  else JsArray.sort byNameAsc arr.

Definition makeSelectPaginated
    (sorted : list UserStatistic) (page pageSize : number) : Page.t :=
  let total := Z.of_nat (List.length sorted) in
  let totalPages := Math_max (Int 1) (Math_ceil_div total pageSize) in
  let currentPage := Math_min (Math_max (Int 1) page) totalPages in
  let data :=
    slice sorted (mul (sub currentPage (Int 1)) pageSize) (mul currentPage pageSize) in
  {| Page.data := data; Page.total := total;
     Page.totalPages := totalPages; Page.currentPage := currentPage |}.

(** The sums are sums of numbers: each [+=] is a binary64 addition. *)
Definition selectGlobalTotals (global : list UserStatistic) : Totals.t :=
  fold_left
    (fun acc u =>
       {| Totals.completed :=
            (Totals.completed acc + JsDouble.of_Z (completedTasks u))%float;
          Totals.inWork := (Totals.inWork acc + JsDouble.of_Z (inWorkTasks u))%float;
          Totals.failed := (Totals.failed acc + JsDouble.of_Z (failedTasks u))%float |})
    global
    {| Totals.completed := 0%float; Totals.inWork := 0%float;
       Totals.failed := 0%float |}.

Definition selectGlobalKpis (global : list UserStatistic) : Kpis.t :=
  let users := Z.of_nat (List.length global) in
  let '(completed, inWork, failed) :=
    fold_left
      (fun '(completed, inWork, failed) u =>
         ((completed + JsDouble.of_Z (completedTasks u))%float,
          (inWork + JsDouble.of_Z (inWorkTasks u))%float,
          (failed + JsDouble.of_Z (failedTasks u))%float))
      global (0%float, 0%float, 0%float) in
  let total := (completed + inWork + failed)%float in
  let doneRate :=
    if JsDouble.truthy total
    then JsDouble.Math_round (completed / total * 100)%float
    else 0%float in
  let avgCompletedPerUser :=
    if users =? 0 then 0%float
    else JsDouble.ToNumber
           (JsDouble.toFixed2 (completed / JsDouble.of_Z users)%float) in
  let byCompleted := JsArray.sort byCompletedDesc global in
  let top :=
    match byCompleted with
    | u :: _ => if completedTasks u >? 0 then Some u else None
    | [] => None
    end in
  let leaderboard :=
    JsArray.mapi
      (fun u i =>
         {| Leader.place := i + 1; Leader.id := id u;
            Leader.name := name u; Leader.completed := completedTasks u |})
      (slice (filter (fun u => completedTasks u >? 0) byCompleted) (Int 0) (Int 5)) in
  {| Kpis.users := users; Kpis.total := total; Kpis.completed := completed;
     Kpis.inWork := inWork; Kpis.failed := failed; Kpis.doneRate := doneRate;
     Kpis.avgCompletedPerUser := avgCompletedPerUser; Kpis.top := top;
     Kpis.leaderboard := leaderboard |}.

(** The selectors as the dashboard page calls them, on the array of the
    store. *)
Definition selectSorted
    (global : list UserStatistic) (query : jsstring) (sortMode : string)
    (onlyActive : bool) : list UserStatistic :=
  makeSelectSorted (makeSelectFiltered global query onlyActive) sortMode.

Definition selectPaginated
    (global : list UserStatistic) (query : jsstring) (sortMode : string)
    (onlyActive : bool) (page pageSize : number) : Page.t :=
  makeSelectPaginated (selectSorted global query sortMode onlyActive) page pageSize.

End Selectors.

(** ** Sample data

    A lower-casing and a collation to run the selectors on: the first is
    [toLowerCase] on the basic Latin and Russian capitals, the second orders
    strings by their code units, which on Russian capitals is the order of
    the alphabet.  They stand in for the engine's own where a property is
    tried on concrete records. *)
Module Sample.

Definition lowerUnit (c : code_unit) : code_unit :=
  (if (65 <=? c) && (c <=? 90) then c + 32
   else if (1040 <=? c) && (c <=? 1071) then c + 32
   else if c =? 1025 then 1105
   else c)%N.

Definition lower (s : jsstring) : jsstring := map lowerUnit s.

Fixpoint compareUnits (a b : jsstring) : Z :=
  match a, b with
  | [], [] => 0
  | [], _ :: _ => -1
  | _ :: _, [] => 1
  | x :: a', y :: b' =>
      match (x ?= y)%N with
      | Lt => -1
      | Gt => 1
      | Eq => compareUnits a' b'
      end
  end.

Definition user (i : Z) (n : jsstring) (c w f : Z) : UserStatistic :=
  {| id := i; name := n; ava := None;
     completedTasks := c; inWorkTasks := w; failedTasks := f |}.

(** "Аня", "Борис", "Вера", "вер" *)
Definition Anya : jsstring := [1040; 1085; 1103]%N.
Definition Boris : jsstring := [1041; 1086; 1088; 1080; 1089]%N.
Definition Vera : jsstring := [1042; 1077; 1088; 1072]%N.
Definition ver : jsstring := [1074; 1077; 1088]%N.

Definition anya : UserStatistic := user 1 Anya 5 0 0.
Definition boris : UserStatistic := user 2 Boris 5 1 0.
Definition vera : UserStatistic := user 3 Vera 2 0 3.
Definition idle : UserStatistic := user 4 [1043; 1083; 1077; 1073]%N 0 0 0.

Definition team : list UserStatistic := [anya; boris; vera].

(** Five records: the team and two more without tasks. *)
Definition roster : list UserStatistic :=
  team ++ [idle; user 5 [1044; 1080; 1084; 1072]%N 0 0 0].

(** " вер " followed by a tab *)
Definition padded_query : jsstring := [32]%N ++ ver ++ [32; 9]%N.

End Sample.

(** ** The vocabulary of the properties *)

(** A comparator is consistent when swapping its arguments flips its sign
    and "not after" is transitive: it then ranks the elements in one total
    order, with ties allowed. *)
Definition consistent {A : Type} (cmp : A -> A -> Z) : Prop :=
  (forall a b, Z.sgn (cmp b a) = - Z.sgn (cmp a b)) /\
  (forall a b c, cmp a b <= 0 -> cmp b c <= 0 -> cmp a c <= 0).

(** Every element is not after any later one. *)
Definition ordered {A : Type} (cmp : A -> A -> Z) (l : list A) : Prop :=
  StronglySorted (fun a b => cmp a b <= 0) l.

(** [tie cmp z y]: the comparator puts [y] level with [z]. *)
Definition tie {A : Type} (cmp : A -> A -> Z) (z y : A) : bool := cmp z y =? 0.

(** [l'] keeps the ties of [l]: the elements level with any given one come
    in [l'] in the order they have in [l]. *)
Definition keeps_ties {A : Type} (cmp : A -> A -> Z) (l l' : list A) : Prop :=
  forall z, filter (tie cmp z) l' = filter (tie cmp z) l.

(** [q] occurs in [s] as a substring. *)
Definition occurs_in (q s : jsstring) : Prop :=
  exists pre post, s = pre ++ q ++ post.

(** The elements of [l] at the indices [i] with [a <= i < b], in order. *)
Fixpoint segment_from {A : Type} (i : Z) (l : list A) (a b : Z) : list A :=
  match l with
  | [] => []
  | x :: t =>
      if (a <=? i) && (i <? b) then x :: segment_from (i + 1) t a b
      else segment_from (i + 1) t a b
  end.

Definition segment {A : Type} (l : list A) (a b : Z) : list A :=
  segment_from 0 l a b.

(** [p] brought into the range from [lo] to [hi]. *)
Definition clamp (p lo hi : Z) : Z := Z.max lo (Z.min p hi).

(** [c] is the quotient [a / n] rounded up to an integer.  No integer is
    when [n] is zero. *)
Definition is_ceiling (c a n : Z) : Prop :=
  if 0 <? n then (c - 1) * n < a <= c * n else c * n <= a < (c - 1) * n.

(** What the pagination is to return for the records [X], the requested
    page [p] and the page size [n]: the number of records; the number of
    pages, at least one; the requested page brought into the range of the
    pages; and the records at the indices of that page. *)
Definition paginates (X : list UserStatistic) (p n : Z) (r : Page.t) : Prop :=
  Page.total r = Z.of_nat (List.length X) /\
  exists c,
    is_ceiling c (Page.total r) n /\
    let pages := Z.max 1 c in
    let current := clamp p 1 pages in
    Page.totalPages r = Int pages /\
    Page.currentPage r = Int current /\
    Page.data r = segment X ((current - 1) * n) (current * n) /\
    (Page.total r = 0 -> Page.data r = []).

(** The sum of a count over the records. *)
Definition sum_of (f : UserStatistic -> Z) (l : list UserStatistic) : Z :=
  fold_right (fun u s => f u + s) 0 l.

(** The order of the descending modes: a larger metric first, and among
    equal metrics the name the collation puts first. *)
Definition metric_then_name
    (collator_compare : jsstring -> jsstring -> Z)
    (metric : UserStatistic -> Z) (a b : UserStatistic) : Prop :=
  metric b < metric a \/
  (metric a = metric b /\ collator_compare (name a) (name b) <= 0).

(** Two records have the same full key in a descending mode. *)
Definition same_key
    (collator_compare : jsstring -> jsstring -> Z)
    (metric : UserStatistic -> Z) (a b : UserStatistic) : bool :=
  (metric a =? metric b) && (collator_compare (name a) (name b) =? 0).

(** The comparator of a descending mode, for any metric. *)
Definition desc_comparator
    (collator_compare : jsstring -> jsstring -> Z)
    (metric : UserStatistic -> Z) (a b : UserStatistic) : Z :=
  or_else (metric b - metric a) (collator_compare (name a) (name b)).

(** The descending modes and the count each one sorts on. *)
Definition desc_modes : list (string * (UserStatistic -> Z)) :=
  [("completedDesc"%string, completedTasks);
   ("failedDesc"%string, failedTasks);
   ("inWorkDesc"%string, inWorkTasks)].

(** The four modes of the [SortMode] type. *)
Definition known_modes : list string :=
  ["completedDesc"; "nameAsc"; "failedDesc"; "inWorkDesc"]%string.

(** The row of the leaderboard made of a record and its place. *)
Definition leader_row (u : UserStatistic) (place : Z) : Leader.t :=
  {| Leader.place := place; Leader.id := id u;
     Leader.name := name u; Leader.completed := completedTasks u |}.

(** [has_value x num den]: the double [x] is a zero or a finite number, and
    its exact value, [m * 2^e] with the sign, is the fraction [num / den]. *)
Definition has_value (x : float) (num den : Z) : Prop :=
  0 < den /\
  match Prim2SF x with
  | S754_zero _ => num = 0
  | S754_finite s m e =>
      (if s then - Zpos m else Zpos m) * 2 ^ Z.max e 0 * den =
      num * 2 ^ Z.max (- e) 0
  | _ => False
  end.

(** The double [x] is the integer [z], exactly. *)
Definition holds_integer (x : float) (z : Z) : Prop := has_value x z 1.

(** [n] is the integer nearest to [num / den], the larger one of two that
    are equally near: [n - 1/2 <= num / den < n + 1/2]. *)
Definition nearest_integer (num den n : Z) : Prop :=
  (2 * n - 1) * den <= 2 * num < (2 * n + 1) * den.

(** [r] is the double [x] rounded to an integer: the integer nearest to
    the exact value of [x], and [x] itself when it is an infinity or NaN. *)
Definition rounded_to_integer (x r : float) : Prop :=
  match Prim2SF x with
  | S754_zero _ | S754_finite _ _ _ =>
      exists num den n,
        has_value x num den /\ nearest_integer num den n /\ holds_integer r n
  | _ => r = x
  end.

(** The quotient of the integers [n] and [d] as a double, with a sign: the
    division of binary64, as the standard library specifies it, of the two
    integers. *)
Definition quotient_double (neg : bool) (n d : positive) : float :=
  SF2Prim (SFdiv prec emax (S754_finite neg n 0) (S754_finite false d 0)).

(** [r] is the double [x] rounded to two decimals: with [n] the integer
    nearest to a hundred times the magnitude of the exact value of [x], it
    is the double of [n / 100] with the sign of [x]; it is [x] itself when
    [x] is an infinity, NaN or of magnitude 10^21 and more. *)
Definition rounded_to_hundredths (x r : float) : Prop :=
  match Prim2SF x with
  | S754_zero _ | S754_finite _ _ _ =>
      exists num den,
        has_value x num den /\
        if 10 ^ 21 * den <=? Z.abs num then r = x
        else
          exists n,
            nearest_integer (100 * Z.abs num) den n /\
            match n with
            | Zpos p => r = quotient_double (num <? 0) p 100
            | _ => holds_integer r 0
            end
  | _ => r = x
  end.

(** ** The dashboard page and the users table

    What the page that calls the selectors, and the table it renders,
    compute from the result of the pagination. *)
Module Dashboard.

(** [a + b] *)
Definition add (a b : number) : number :=
  match a, b with
  | NaN, _ | _, NaN => NaN
  | PosInf, NegInf | NegInf, PosInf => NaN
  | PosInf, _ | _, PosInf => PosInf
  | NegInf, _ | _, NegInf => NegInf
  | Int x, Int y => Int (x + y)
  end.

(** [a !== b] on numbers: [NaN] differs from every number, itself
    included. *)
Definition strictNotEquals (a b : number) : bool :=
  match a, b with
  | Int x, Int y => negb (x =? y)
  | PosInf, PosInf | NegInf, NegInf => false
  | _, _ => true
  end.

(** The effect that follows the pagination: when the page asked for is not
    the page shown, the page state is set to the page shown.  The result is
    the page state after the effect. *)
Definition syncPage (page currentPage : number) : number :=
  if strictNotEquals page currentPage then currentPage else page.

(** The rank written on the card of the record at index [i] of the page. *)
Definition cardRank (currentPage pageSize : number) (i : Z) : number :=
  add (add (mul (sub currentPage (Int 1)) pageSize) (Int i)) (Int 1).

(** The offset the page hands to the table, and the rank the table writes
    in row [i]. *)
Definition pageRankOffset (currentPage pageSize : number) : number :=
  mul (sub currentPage (Int 1)) pageSize.

Definition tableRank (pageRankOffset : number) (i : Z) : number :=
  add (add pageRankOffset (Int i)) (Int 1).

End Dashboard.

(** ** The statistics slice of the store

    [src/store/slices/statisticsSlice.ts]: the state the selectors read and
    the reducer that produces it.  The reducer is written as assignments to
    a draft of the state; it is embedded as the function from the state and
    the action to the next state. *)
Module Statistics.
Section Slice.

(** Modelled from the spec: the declaration of [MyStatistic]
    ([shared/types/types] is not among the sources).  The reducer only
    stores values of this type, so it is left open. *)
Variable MyStatistic : Type.

Record StatisticsState : Type := {
  global : list UserStatistic;
  my : option MyStatistic;
  loading : bool;
  error : option jsstring;
  sortMode : string
}.

(** The sort mode read from local storage when the module is loaded, [None]
    when nothing is stored. *)
Variable persistedSort : option string.

Definition initialState : StatisticsState :=
  {| global := []; my := None; loading := false; error := None;
     sortMode := match persistedSort with
                 | Some m => m
                 | None => "completedDesc"%string
                 end |}.

(** The actions the slice has a case for; [other] is any action it has
    none for (the pending of [fetchMyStatistic] is one).  A rejected action
    carries the message handed to [rejectWithValue], when there is one. *)
Inductive action : Type :=
| setSortMode (payload : string)
| clearError
| resetStatistics
| fetchGlobal_pending
| fetchGlobal_fulfilled (payload : list UserStatistic)
| fetchGlobal_rejected (payload : option jsstring)
| fetchMy_fulfilled (payload : option MyStatistic)
| fetchMy_rejected (payload : option jsstring)
| other.

(** "Неизвестная ошибка" *)
Definition unknownError : jsstring :=
  [1053; 1077; 1080; 1079; 1074; 1077; 1089; 1090; 1085; 1072; 1103; 32;
   1086; 1096; 1080; 1073; 1082; 1072]%N.

(** [a ?? b] *)
Definition orDefault {A : Type} (a : option A) (b : A) : A :=
  match a with Some x => x | None => b end.

Definition reducer (state : StatisticsState) (a : action) : StatisticsState :=
  match a with
  | setSortMode payload =>
      {| global := global state; my := my state; loading := loading state;
         error := error state; sortMode := payload |}
  | clearError =>
      {| global := global state; my := my state; loading := loading state;
         error := None; sortMode := sortMode state |}
  | resetStatistics => initialState
  | fetchGlobal_pending =>
      {| global := global state; my := my state; loading := true;
         error := None; sortMode := sortMode state |}
  | fetchGlobal_fulfilled payload =>
      {| global := payload; my := my state; loading := false;
         error := error state; sortMode := sortMode state |}
  | fetchGlobal_rejected payload =>
      {| global := global state; my := my state; loading := false;
         error := Some (orDefault payload unknownError);
         sortMode := sortMode state |}
  | fetchMy_fulfilled payload =>
      {| global := global state; my := payload; loading := loading state;
         error := error state; sortMode := sortMode state |}
  | fetchMy_rejected payload =>
      {| global := global state; my := my state; loading := loading state;
         error := match error state with
                  | Some e => Some e
                  | None => payload
                  end;
         sortMode := sortMode state |}
  | other => state
  end.

(** The state after a sequence of actions. *)
Definition run (state : StatisticsState) (actions : list action) : StatisticsState :=
  fold_left reducer actions state.

(** [selectGlobal] *)
Definition selectGlobal (state : StatisticsState) : list UserStatistic :=
  global state.

(** The actions that put another array in [global]. *)
Definition replacesSnapshot (a : action) : bool :=
  match a with
  | fetchGlobal_fulfilled _ | resetStatistics => true
  | _ => false
  end.

(** The actions that drop or replace the error message. *)
Definition touchesError (a : action) : bool :=
  match a with
  | clearError | resetStatistics | fetchGlobal_pending | fetchGlobal_rejected _ => true
  | _ => false
  end.

End Slice.
End Statistics.

(** ** The avatar utilities: is an uploaded image animated?

    The functions of [src/pages/ProfilePage/utils/utils.ts] that look at the
    first bytes of a file.  A [Uint8Array] is a list of bytes. *)
Module Avatar.

(** [bytes[i]]: [None] is [undefined], which is what an index outside the
    array gives. *)
Definition at_index (bytes : list Byte.byte) (i : Z) : option Byte.byte :=
  if i <? 0 then None else nth_error bytes (Z.to_nat i).

(** The number an element is as an operand of [|], [<<] and [&]:
    [undefined] counts as 0. *)
Definition operand (b : option Byte.byte) : Z :=
  match b with
  | Some x => Z.of_N (Byte.to_N x)
  | None => 0
  end.

(** ToInt32: the integer taken modulo 2^32 into the signed 32-bit range. *)
Definition ToInt32 (z : Z) : Z := (z + 2 ^ 31) mod 2 ^ 32 - 2 ^ 31.

(** [x << k] *)
Definition shiftLeft (x k : Z) : Z := ToInt32 (Z.shiftl (ToInt32 x) k).

(** [x | y] and [x & y] on 32-bit integers *)
Definition bitOr (x y : Z) : Z := Z.lor (ToInt32 x) (ToInt32 y).
Definition bitAnd (x y : Z) : Z := Z.land (ToInt32 x) (ToInt32 y).

(** [a === b] on strings *)
Fixpoint sameString (a b : jsstring) : bool :=
  match a, b with
  | [], [] => true
  | x :: a', y :: b' => (x =? y)%N && sameString a' b'
  | _, _ => false
  end.

(** [String.fromCharCode(...bytes.slice(start, start + len))] *)
Definition textFrom (bytes : list Byte.byte) (start len : Z) : jsstring :=
  map Byte.to_N (slice bytes (Int start) (Int (start + len))).

Definition GIF87a : jsstring := [71; 73; 70; 56; 55; 97]%N.
Definition GIF89a : jsstring := [71; 73; 70; 56; 57; 97]%N.
Definition RIFF : jsstring := [82; 73; 70; 70]%N.
Definition WEBP : jsstring := [87; 69; 66; 80]%N.
Definition VP8X : jsstring := [86; 80; 56; 88]%N.
Definition ANIM : jsstring := [65; 78; 73; 77]%N.
Definition ANMF : jsstring := [65; 78; 77; 70]%N.
Definition acTL : jsstring := [97; 99; 84; 76]%N.
Definition pngSignature : list N := [137; 80; 78; 71; 13; 10; 26; 10]%N.

(** The loop of [isAnimatedGIF] over the bytes that are left, with the
    frames counted so far. *)
Fixpoint countFrames (frames : Z) (rest : list Byte.byte) : bool :=
  match rest with
  | [] => false
  | b :: rest' =>
      if (Byte.to_N b =? 44)%N
      then if frames + 1 >? 1 then true else countFrames (frames + 1) rest'
      else countFrames frames rest'
  end.

Definition isAnimatedGIF (head : list Byte.byte) : bool :=
  let sig := textFrom head 0 6 in
  if negb (sameString sig GIF87a || sameString sig GIF89a) then false
  else countFrames 0 head.

(** The loop of [isAnimatedPNG] over the signature, from index [i] on:
    [false] at the first element of [head] that is not the byte expected
    there, an element that is missing included. *)
Fixpoint signatureFrom (head : list Byte.byte) (i : Z) (expected : list N) : bool :=
  match expected with
  | [] => true
  | s :: expected' =>
      match at_index head i with
      | Some b => if (Byte.to_N b =? s)%N then signatureFrom head (i + 1) expected' else false
      | None => false
      end
  end.

Section Decoder.
(** [new TextDecoder().decode]: the bytes read as UTF-8. *)
Variable decode : list Byte.byte -> jsstring.

Definition isAnimatedPNG (head : list Byte.byte) : bool :=
  if signatureFrom head 0 pngSignature then includes (decode head) acTL else false.
End Decoder.

Definition readU32LE (bytes : list Byte.byte) (off : Z) : Z :=
  bitOr
    (bitOr
       (bitOr (operand (at_index bytes off))
              (shiftLeft (operand (at_index bytes (off + 1))) 8))
       (shiftLeft (operand (at_index bytes (off + 2))) 16))
    (shiftLeft (operand (at_index bytes (off + 3))) 24).

(** The chunk at position [p] says the image is animated. *)
Definition marksAnimation (head : list Byte.byte) (p : Z) : bool :=
  let fourCC := textFrom head p 4 in
  let dataStart := p + 8 in
  (sameString fourCC VP8X
   && negb (bitAnd (operand (at_index head dataStart)) 2 =? 0))
  || sameString fourCC ANIM || sameString fourCC ANMF.

(** The length of the chunk at position [p], header included, as the loop
    computes it: [8 + ((size + 1) & ~1)]. *)
Definition chunkLen (head : list Byte.byte) (p : Z) : Z :=
  let size := readU32LE head (p + 4) in
  8 + bitAnd (size + 1) (-2).

(** The loop of [isAnimatedWebP] from position [p].  The loop need not
    end, so the embedding counts the tests of its condition: [None] when
    [fuel] tests were not enough to leave it. *)
Fixpoint scanChunks (fuel : nat) (head : list Byte.byte) (p : Z) : option bool :=
  match fuel with
  | O => None
  | S fuel' =>
      if p + 8 <=? Z.of_nat (List.length head) then
        if marksAnimation head p then Some true
        else scanChunks fuel' head (p + chunkLen head p)
      else Some false
  end.

Definition isAnimatedWebP (fuel : nat) (head : list Byte.byte) : option bool :=
  if negb (sameString (textFrom head 0 4) RIFF) then Some false
  else if negb (sameString (textFrom head 8 4) WEBP) then Some false
  else scanChunks fuel head 12.

(** The positions the loop of [isAnimatedWebP] comes to. *)
Inductive visits (head : list Byte.byte) : Z -> Prop :=
| visits_first : visits head 12
| visits_next (p : Z) :
    visits head p ->
    p + 8 <= Z.of_nat (List.length head) ->
    marksAnimation head p = false ->
    visits head (p + chunkLen head p).

End Avatar.

(** ** Sample heads of files *)
Module SampleHeads.
Import Byte.

(** "RIFF", a length, "WEBP", and one chunk "VP8 " of size 0. *)
Definition still : list byte :=
  [x52; x49; x46; x46; x0c; x00; x00; x00; x57; x45; x42; x50;
   x56; x50; x38; x20; x00; x00; x00; x00].

(** The same with a chunk "JUNK" whose size field is F8 FF FF FF. *)
Definition looping : list byte :=
  [x52; x49; x46; x46; x0c; x00; x00; x00; x57; x45; x42; x50;
   x4a; x55; x4e; x4b; xf8; xff; xff; xff].

(** A chunk "VP8 " whose size field is E0 FF FF FF, then the bytes "ANIM"
    at 20 and eight more bytes. *)
Definition backwards : list byte :=
  [x52; x49; x46; x46; x18; x00; x00; x00; x57; x45; x42; x50;
   x56; x50; x38; x20; xe0; xff; xff; xff; x41; x4e; x49; x4d;
   x00; x00; x00; x00; x00; x00; x00; x00].

End SampleHeads.

(* ================================================================= *)
(** * Part II: properties *)
(* ================================================================= *)

(** ** Sorting with a consistent comparator *)
Section SortFacts.
Context {A : Type}.
Variable cmp : A -> A -> Z.

Local Abbreviation insert := (JsArray.insert cmp).
Local Abbreviation sort := (JsArray.sort cmp).

Lemma insert_perm (x : A) (l : list A) : Permutation (insert x l) (x :: l).
Proof.
  induction l as [|y t IH]; simpl.
  - apply Permutation_refl.
  - destruct (cmp x y <=? 0).
    + apply Permutation_refl.
    + eapply perm_trans; [apply perm_skip, IH | apply perm_swap].
Qed.

Lemma sort_perm (l : list A) : Permutation (sort l) l.
Proof.
  induction l as [|x t IH]; simpl.
  - constructor.
  - eapply perm_trans; [apply insert_perm | apply perm_skip, IH].
Qed.

Lemma sort_cons (x : A) (l : list A) : sort (x :: l) = insert x (sort l).
Proof. reflexivity. Qed.

Lemma insert_at_front (x : A) (l : list A) :
  ordered cmp (x :: l) -> insert x l = x :: l.
Proof.
  intros H. destruct l as [|y t]; [reflexivity|].
  simpl. inversion H as [|? ? _ Hall]; subst.
  inversion Hall as [|? ? Hxy _]; subst.
  apply Z.leb_le in Hxy. now rewrite Hxy.
Qed.

Lemma sort_ordered_id (l : list A) : ordered cmp l -> sort l = l.
Proof.
  induction l as [|x t IH]; intros H; [reflexivity|].
  rewrite sort_cons, IH by (inversion H; assumption).
  now apply insert_at_front.
Qed.

Hypothesis cmp_consistent : consistent cmp.

Lemma cmp_flip (a b : A) : 0 < cmp a b -> cmp b a < 0.
Proof.
  intros H. destruct cmp_consistent as [Hs _]. specialize (Hs a b).
  destruct (cmp a b), (cmp b a); simpl in Hs; lia || discriminate.
Qed.

Lemma cmp_zero_sym (a b : A) : cmp a b = 0 -> cmp b a = 0.
Proof.
  intros H. destruct cmp_consistent as [Hs _]. specialize (Hs a b).
  rewrite H in Hs. destruct (cmp b a); simpl in Hs; lia || discriminate.
Qed.

Lemma cmp_refl (a : A) : cmp a a = 0.
Proof.
  destruct cmp_consistent as [Hs _]. specialize (Hs a a).
  destruct (cmp a a); simpl in Hs; lia || discriminate.
Qed.

Lemma cmp_le_trans (a b c : A) : cmp a b <= 0 -> cmp b c <= 0 -> cmp a c <= 0.
Proof. destruct cmp_consistent as [_ Ht]. apply Ht. Qed.

Lemma cmp_neg_flip (a b : A) : cmp a b < 0 -> 0 < cmp b a.
Proof.
  intros H. destruct cmp_consistent as [Hs _]. specialize (Hs a b).
  destruct (cmp a b), (cmp b a); simpl in Hs; lia || discriminate.
Qed.

Lemma cmp_both_le (a b : A) : cmp a b <= 0 -> cmp b a <= 0 -> cmp a b = 0.
Proof.
  intros H1 H2. destruct (Z.eq_dec (cmp a b) 0) as [E|E]; [assumption|].
  pose proof (cmp_neg_flip a b). lia.
Qed.

Lemma tie_trans (z x y : A) :
  tie cmp z x = true -> tie cmp z y = true -> cmp x y = 0.
Proof.
  unfold tie. rewrite !Z.eqb_eq. intros Hx Hy.
  pose proof (cmp_zero_sym _ _ Hx) as Hxz.
  pose proof (cmp_zero_sym _ _ Hy) as Hyz.
  apply cmp_both_le.
  - apply (cmp_le_trans x z y); lia.
  - apply (cmp_le_trans y z x); lia.
Qed.

Lemma insert_ordered (x : A) (l : list A) :
  ordered cmp l -> ordered cmp (insert x l).
Proof.
  unfold ordered. induction l as [|y t IH]; intros H; simpl.
  - repeat constructor.
  - destruct (cmp x y <=? 0) eqn:E.
    + apply Z.leb_le in E. inversion H as [|? ? Ht Hall]; subst.
      constructor; [assumption|]. constructor; [assumption|].
      eapply Forall_impl; [|exact Hall].
      intros c Hc. simpl in Hc. now apply (cmp_le_trans x y c).
    + apply Z.leb_gt in E. inversion H as [|? ? Ht Hall]; subst.
      constructor; [now apply IH|].
      eapply Permutation_Forall; [apply Permutation_sym, insert_perm|].
      constructor; [|assumption].
      pose proof (cmp_flip x y E). lia.
Qed.

Lemma sort_ordered (l : list A) : ordered cmp (sort l).
Proof.
  induction l as [|x t IH]; simpl.
  - constructor.
  - now apply insert_ordered.
Qed.

Lemma sort_idempotent (l : list A) : sort (sort l) = sort l.
Proof. apply sort_ordered_id, sort_ordered. Qed.

Lemma insert_keeps_ties (z x : A) (l : list A) :
  filter (tie cmp z) (insert x l) = filter (tie cmp z) (x :: l).
Proof.
  induction l as [|y t IH]; [reflexivity|].
  simpl insert. destruct (cmp x y <=? 0) eqn:E; [reflexivity|].
  apply Z.leb_gt in E.
  change (filter (tie cmp z) (y :: insert x t))
    with (if tie cmp z y then y :: filter (tie cmp z) (insert x t)
          else filter (tie cmp z) (insert x t)).
  rewrite IH. simpl.
  destruct (tie cmp z y) eqn:Ey, (tie cmp z x) eqn:Ex; try reflexivity.
  pose proof (tie_trans z x y Ex Ey). lia.
Qed.

Lemma sort_keeps_ties (l : list A) : keeps_ties cmp l (sort l).
Proof.
  intros z. induction l as [|x t IH]; [reflexivity|].
  rewrite sort_cons, insert_keeps_ties. simpl. now rewrite IH.
Qed.

Lemma tie_refl (a : A) : tie cmp a a = true.
Proof. unfold tie. rewrite cmp_refl. reflexivity. Qed.

Lemma tie_sym (a b : A) : tie cmp a b = tie cmp b a.
Proof.
  unfold tie. destruct (Z.eqb_spec (cmp a b) 0) as [E|E].
  - rewrite (cmp_zero_sym _ _ E). reflexivity.
  - symmetry. apply Z.eqb_neq. intros E'. apply E, cmp_zero_sym, E'.
Qed.

Lemma ordered_ties_unique (l1 l2 : list A) :
  ordered cmp l1 -> ordered cmp l2 ->
  (forall z, filter (tie cmp z) l1 = filter (tie cmp z) l2) ->
  l1 = l2.
Proof.
  revert l2. induction l1 as [|a t1 IH]; intros l2 H1 H2 Hf.
  - destruct l2 as [|b t2]; [reflexivity|].
    specialize (Hf b). simpl in Hf. rewrite tie_refl in Hf. discriminate.
  - destruct l2 as [|b t2].
    + specialize (Hf a). simpl in Hf. rewrite tie_refl in Hf. discriminate.
    + inversion H1 as [|? ? Ht1 Ha]; subst.
      inversion H2 as [|? ? Ht2 Hb]; subst.
      assert (Hab : a = b).
      { destruct (tie cmp a b) eqn:E.
        - pose proof (Hf a) as Hfa. simpl in Hfa.
          rewrite E, tie_refl in Hfa. now inversion Hfa.
        - exfalso.
          assert (In a t2) as Ia.
          { pose proof (Hf a) as Hfa. simpl in Hfa.
            rewrite E, tie_refl in Hfa.
            assert (In a (filter (tie cmp a) t2)) as Hin
              by (rewrite <- Hfa; now left).
            now apply filter_In in Hin. }
          assert (In b t1) as Ib.
          { pose proof (Hf b) as Hfb. simpl in Hfb.
            rewrite (tie_sym b a), E, tie_refl in Hfb.
            assert (In b (filter (tie cmp b) t1)) as Hin
              by (rewrite Hfb; now left).
            now apply filter_In in Hin. }
          rewrite Forall_forall in Ha, Hb.
          pose proof (Ha b Ib) as Hab. pose proof (Hb a Ia) as Hba.
          simpl in Hab, Hba.
          pose proof (cmp_both_le a b Hab Hba) as E0.
          unfold tie in E. rewrite E0 in E. discriminate. }
      subst b. f_equal. apply IH; [assumption|assumption|].
      intros z. specialize (Hf z). simpl in Hf.
      destruct (tie cmp z a); [now inversion Hf | assumption].
Qed.

(** The result of [sort] is the only arrangement that is in comparator
    order and keeps the ties: whatever algorithm the engine runs, it
    returns this list. *)
Lemma sort_unique (l l' : list A) :
  ordered cmp l' -> keeps_ties cmp l l' -> l' = sort l.
Proof.
  intros Ho Hk. apply ordered_ties_unique; [assumption | apply sort_ordered |].
  intros z. rewrite Hk. symmetry. apply sort_keeps_ties.
Qed.

Lemma filter_insert (p : A -> bool) (x : A) (l : list A) :
  ordered cmp l ->
  filter p (insert x l) =
  if p x then insert x (filter p l) else filter p l.
Proof.
  induction l as [|y t IH]; intros H.
  - simpl. destruct (p x); reflexivity.
  - inversion H as [|? ? Ht Hall]; subst. simpl insert.
    destruct (cmp x y <=? 0) eqn:E.
    + apply Z.leb_le in E.
      destruct (p x) eqn:Px; simpl; rewrite Px; [|reflexivity].
      destruct (p y) eqn:Py.
      * simpl. apply Z.leb_le in E. now rewrite E.
      * symmetry. apply insert_at_front.
        constructor.
        -- clear - Ht. induction Ht as [|c s Hs IHs Hc]; simpl; [constructor|].
           destruct (p c); [|assumption].
           constructor; [assumption|].
           rewrite Forall_forall in *. intros d Hd. apply filter_In in Hd.
           apply Hc, Hd.
        -- rewrite Forall_forall in *. intros c Hc. apply filter_In in Hc.
           destruct Hc as [Hc _]. specialize (Hall c Hc). simpl in Hall.
           now apply (cmp_le_trans x y c).
    + simpl. rewrite (IH Ht).
      destruct (p x) eqn:Px, (p y) eqn:Py; try reflexivity.
      simpl. now rewrite E.
Qed.

Lemma filter_ordered (p : A -> bool) (l : list A) :
  ordered cmp l -> ordered cmp (filter p l).
Proof.
  unfold ordered. induction 1 as [|c s Hs IHs Hc]; simpl; [constructor|].
  destruct (p c); [|assumption].
  constructor; [assumption|].
  rewrite Forall_forall in *. intros d Hd. apply filter_In in Hd. apply Hc, Hd.
Qed.

(** Filtering commutes with sorting. *)
Lemma filter_sort (p : A -> bool) (l : list A) :
  filter p (sort l) = sort (filter p l).
Proof.
  induction l as [|x t IH]; [reflexivity|].
  rewrite sort_cons, filter_insert by apply sort_ordered.
  simpl. destruct (p x); [|assumption].
  now rewrite sort_cons, IH.
Qed.

Lemma filter_permutation (p : A -> bool) (l l' : list A) :
  Permutation l l' -> Permutation (filter p l) (filter p l').
Proof.
  induction 1 as [|x l l' _ IH|x y l|l l' l'' _ IH1 _ IH2]; simpl.
  - constructor.
  - destruct (p x); [now constructor | assumption].
  - destruct (p x), (p y); try apply Permutation_refl. apply perm_swap.
  - now apply perm_trans with (filter p l').
Qed.

(** In a list that is strictly in comparator order no two elements are
    level with the same one. *)
Lemma strict_order_single_tie (z : A) (l : list A) :
  StronglySorted (fun a b => cmp a b < 0) l ->
  (List.length (filter (tie cmp z) l) <= 1)%nat.
Proof.
  induction 1 as [|a t _ IH Hall]; simpl; [lia|].
  destruct (tie cmp z a) eqn:Ea; [|exact IH].
  replace (filter (tie cmp z) t) with (@nil A); [simpl; lia|].
  symmetry. clear IH. induction Hall as [|b t Hb _ IHt]; [reflexivity|].
  simpl. destruct (tie cmp z b) eqn:Eb; [|exact IHt].
  pose proof (tie_trans z a b Ea Eb). lia.
Qed.

(** Without ties the order of the input does not matter: every arrangement
    of a strictly ordered list sorts to that list. *)
Lemma sort_permuted_strict (l l' : list A) :
  Permutation l l' -> StronglySorted (fun a b => cmp a b < 0) l' -> sort l = l'.
Proof.
  intros HP Hs. symmetry. apply sort_unique.
  - unfold ordered. clear HP. induction Hs as [|a t _ IH Hall]; [constructor|].
    constructor; [exact IH|].
    eapply Forall_impl; [|exact Hall]. simpl. intros; lia.
  - intros z. pose proof (strict_order_single_tie z l' Hs) as Hlen.
    pose proof (filter_permutation (tie cmp z) _ _ HP) as HF.
    destruct (filter (tie cmp z) l') as [|a [|b t]]; simpl in Hlen; try lia.
    + apply Permutation_sym, Permutation_nil in HF. now rewrite HF.
    + apply Permutation_sym, Permutation_length_1_inv in HF. now rewrite HF.
Qed.

End SortFacts.

(** ** Strings *)

Lemma startsWith_spec (q s : jsstring) :
  startsWith q s = true <-> exists post, s = q ++ post.
Proof.
  revert s. induction q as [|a q IH]; intros s; simpl.
  - split; [intros _; now exists s | reflexivity].
  - destruct s as [|b s].
    + split; [discriminate | intros [post H]; discriminate].
    + rewrite andb_true_iff, N.eqb_eq, IH. split.
      * intros [-> [post ->]]. now exists post.
      * intros [post H]. inversion H; subst. split; [reflexivity | now exists post].
Qed.

Lemma includes_spec (s q : jsstring) :
  includes s q = true <-> occurs_in q s.
Proof.
  unfold occurs_in. induction s as [|b s IH].
  - simpl. rewrite orb_false_r, startsWith_spec. split.
    + intros [post H]. now exists [], post.
    + intros [pre [post H]]. destruct pre; simpl in H.
      * now exists post.
      * discriminate.
  - cbn [includes]. rewrite orb_true_iff, startsWith_spec, IH. split.
    + intros [[post H] | [pre [post H]]].
      * now exists [], post.
      * exists (b :: pre), post. simpl. now rewrite H.
    + intros [pre [post H]]. destruct pre as [|c pre]; simpl in H.
      * left. now exists post.
      * right. inversion H; subst. now exists pre, post.
Qed.

Lemma includes_empty (s : jsstring) : includes s [] = true.
Proof. destruct s; reflexivity. Qed.

Lemma truthy_false (s : jsstring) : truthy s = false -> s = [].
Proof. destruct s; [reflexivity | discriminate]. Qed.

Lemma trimStart_spec (s : jsstring) :
  exists ws, s = ws ++ trimStart s /\ forallb isWhiteSpace ws = true /\
             match trimStart s with
             | [] => True
             | c :: _ => isWhiteSpace c = false
             end.
Proof.
  induction s as [|c t (ws & Hs & Hws & Hhd)].
  - now exists [].
  - simpl. destruct (isWhiteSpace c) eqn:E.
    + exists (c :: ws). simpl. rewrite E, Hws. repeat split; [congruence | assumption].
    + exists []. repeat split. assumption.
Qed.

(** [trim] cuts white space, and nothing else, off both ends. *)
Lemma trim_spec (s : jsstring) :
  exists before after,
    s = before ++ trim s ++ after /\
    forallb isWhiteSpace before = true /\ forallb isWhiteSpace after = true /\
    (forall c t, trim s = c :: t -> isWhiteSpace c = false) /\
    (forall t c, trim s = t ++ [c] -> isWhiteSpace c = false).
Proof.
  destruct (trimStart_spec s) as (before & Hs & Hb & Hhd).
  destruct (trimStart_spec (rev (trimStart s))) as (retfa & Hr & Ha & Htl).
  fold (trimEnd (trimStart s)) in *. unfold trim.
  assert (Hmid : trimStart s = trimEnd (trimStart s) ++ rev retfa).
  { rewrite <- (rev_involutive (trimStart s)), Hr at 1.
    rewrite rev_app_distr. reflexivity. }
  exists before, (rev retfa). repeat split.
  - now rewrite <- Hmid.
  - assumption.
  - rewrite forallb_forall in *. intros c Hc. apply Ha. now apply in_rev.
  - intros c t Ht. rewrite Ht in Hmid. rewrite Hmid in Hhd. exact Hhd.
  - intros t c Ht. unfold trimEnd in Ht.
    assert (Hrev : trimStart (rev (trimStart s)) = c :: rev t).
    { rewrite <- (rev_involutive (trimStart (rev (trimStart s)))), Ht.
      rewrite rev_app_distr. reflexivity. }
    rewrite Hrev in Htl. exact Htl.
Qed.

(** ** The sample collation is consistent *)

Lemma compareUnits_sgn (a b : jsstring) :
  Z.sgn (Sample.compareUnits b a) = - Z.sgn (Sample.compareUnits a b).
Proof.
  revert b. induction a as [|x a IH]; intros [|y b]; try reflexivity.
  simpl. rewrite (N.compare_antisym x y).
  destruct (x ?= y)%N; simpl; try reflexivity. apply IH.
Qed.

Lemma compareUnits_trans (a b c : jsstring) :
  Sample.compareUnits a b <= 0 -> Sample.compareUnits b c <= 0 ->
  Sample.compareUnits a c <= 0.
Proof.
  revert b c. induction a as [|x a IH]; intros [|y b] [|z c]; simpl; try lia.
  destruct (x ?= y)%N eqn:Exy; try lia.
  - apply N.compare_eq in Exy. subst y.
    destruct (x ?= z)%N; try lia. apply IH.
  - destruct (y ?= z)%N eqn:Eyz; try lia.
    + apply N.compare_eq in Eyz. subst z. rewrite Exy. lia.
    + rewrite N.compare_lt_iff in Exy, Eyz.
      assert ((x ?= z)%N = Lt) as -> by (apply N.compare_lt_iff; lia). lia.
Qed.

Lemma compareUnits_consistent : consistent Sample.compareUnits.
Proof.
  split; [intros a b; apply compareUnits_sgn | apply compareUnits_trans].
Qed.

(** ** The sort stage *)
Section SortStage.
Variable collator_compare : jsstring -> jsstring -> Z.

Local Abbreviation sorted_by := (makeSelectSorted collator_compare).

Lemma or_else_le (x y : Z) : or_else x y <= 0 <-> x < 0 \/ (x = 0 /\ y <= 0).
Proof. unfold or_else. destruct (Z.eqb_spec x 0); lia. Qed.

Lemma desc_comparator_le (metric : UserStatistic -> Z) (a b : UserStatistic) :
  desc_comparator collator_compare metric a b <= 0 <->
  metric_then_name collator_compare metric a b.
Proof.
  unfold desc_comparator, metric_then_name. rewrite or_else_le. lia.
Qed.

Lemma desc_comparator_tie (metric : UserStatistic -> Z) (a b : UserStatistic) :
  tie (desc_comparator collator_compare metric) a b =
  same_key collator_compare metric a b.
Proof.
  unfold tie, same_key, desc_comparator, or_else.
  destruct (Z.eqb_spec (metric b - metric a) 0) as [E|E].
  - assert ((metric a =? metric b) = true) as -> by (apply Z.eqb_eq; lia).
    reflexivity.
  - assert ((metric a =? metric b) = false) as -> by (apply Z.eqb_neq; lia).
    simpl. apply Z.eqb_neq. assumption.
Qed.

Lemma sorted_by_desc (X : list UserStatistic) (mode : string)
    (metric : UserStatistic -> Z) :
  In (mode, metric) desc_modes ->
  sorted_by X mode = JsArray.sort (desc_comparator collator_compare metric) X.
Proof.
  unfold desc_modes. simpl.
  intros [H | [H | [H | []]]]; inversion H; subst; reflexivity.
Qed.

Lemma sorted_by_default (X : list UserStatistic) (mode : string) :
  mode <> "completedDesc"%string -> mode <> "failedDesc"%string ->
  mode <> "inWorkDesc"%string ->
  sorted_by X mode = JsArray.sort (byNameAsc collator_compare) X.
Proof.
  intros H1 H2 H3. unfold makeSelectSorted.
  apply String.eqb_neq in H1, H2, H3. now rewrite H1, H2, H3.
Qed.

(** Whatever the mode, the stage sorts with one of four comparators. *)
Lemma sorted_by_cases (X : list UserStatistic) (mode : string) :
  exists cmp,
    sorted_by X mode = JsArray.sort cmp X /\
    (cmp = byCompletedDesc collator_compare \/ cmp = byFailedDesc collator_compare \/
     cmp = byInWorkDesc collator_compare \/ cmp = byNameAsc collator_compare) /\
    forall Y, sorted_by Y mode = JsArray.sort cmp Y.
Proof.
  unfold makeSelectSorted.
  destruct (String.eqb mode "completedDesc");
    [eexists; split; [reflexivity | split; [auto | reflexivity]] |].
  destruct (String.eqb mode "failedDesc");
    [eexists; split; [reflexivity | split; [auto | reflexivity]] |].
  destruct (String.eqb mode "inWorkDesc");
    [eexists; split; [reflexivity | split; [auto | reflexivity]] |].
  eexists; split; [reflexivity | split; [auto 6 | reflexivity]].
Qed.

(** C10: whatever the mode, the sort stage returns a permutation of its
    input: the same records, each as often as in the input, and as many of
    them; no record is dropped, repeated or changed. *)
Theorem sort_stage_permutes (X : list UserStatistic) (mode : string) :
  Permutation (sorted_by X mode) X /\
  List.length (sorted_by X mode) = List.length X /\
  (forall u, In u (sorted_by X mode) <-> In u X).
Proof.
  destruct (sorted_by_cases X mode) as (cmp & -> & _ & _).
  pose proof (sort_perm cmp X) as HP.
  split; [exact HP | split].
  - now apply Permutation_length.
  - intros u. split; apply Permutation_in; [exact HP | now apply Permutation_sym].
Qed.

Hypothesis collator_consistent : consistent collator_compare.

Lemma desc_comparator_consistent (metric : UserStatistic -> Z) :
  consistent (desc_comparator collator_compare metric).
Proof.
  destruct collator_consistent as [Hs Ht]. split.
  - intros a b. unfold desc_comparator, or_else.
    destruct (Z.eqb_spec (metric b - metric a) 0) as [E|E];
      destruct (Z.eqb_spec (metric a - metric b) 0) as [E'|E']; try lia.
    apply Hs.
  - intros a b c. rewrite !desc_comparator_le. unfold metric_then_name.
    intros [H1 | [H1 H1']] [H2 | [H2 H2']]; try (left; lia).
    right. split; [lia|]. now apply (Ht _ (name b)).
Qed.

Lemma byNameAsc_consistent : consistent (byNameAsc collator_compare).
Proof.
  destruct collator_consistent as [Hs Ht]. unfold byNameAsc. split.
  - intros a b. apply Hs.
  - intros a b c. apply Ht.
Qed.

Lemma stage_comparator_consistent (cmp : UserStatistic -> UserStatistic -> Z) :
  cmp = byCompletedDesc collator_compare \/ cmp = byFailedDesc collator_compare \/
  cmp = byInWorkDesc collator_compare \/ cmp = byNameAsc collator_compare ->
  consistent cmp.
Proof.
  intros [-> | [-> | [-> | ->]]].
  - apply (desc_comparator_consistent completedTasks).
  - apply (desc_comparator_consistent failedTasks).
  - apply (desc_comparator_consistent inWorkTasks).
  - apply byNameAsc_consistent.
Qed.

(** C8: sorting is idempotent: sorting the output of the sort stage again in
    the same mode returns it unchanged. *)
Theorem sort_stage_idempotent (X : list UserStatistic) (mode : string) :
  sorted_by (sorted_by X mode) mode = sorted_by X mode.
Proof.
  destruct (sorted_by_cases X mode) as (cmp & HX & Hcmp & Hall).
  rewrite (Hall (sorted_by X mode)), HX.
  apply sort_idempotent. now apply stage_comparator_consistent.
Qed.

(** C7: a mode outside the four of the type is sorted as [nameAsc]: by the
    collation of the names alone, in ascending order, ties kept in input
    order; the stage returns a list for every mode. *)
Theorem sort_stage_unknown_mode (X : list UserStatistic) (mode : string) :
  ~ In mode known_modes ->
  sorted_by X mode = sorted_by X "nameAsc" /\
  sorted_by X "nameAsc" =
    JsArray.sort (fun a b => collator_compare (name a) (name b)) X /\
  StronglySorted (fun a b => collator_compare (name a) (name b) <= 0)
    (sorted_by X mode) /\
  (forall z,
     filter (fun u => collator_compare (name z) (name u) =? 0) (sorted_by X mode) =
     filter (fun u => collator_compare (name z) (name u) =? 0) X).
Proof.
  intros Hn. unfold known_modes in Hn. simpl in Hn.
  assert (sorted_by X mode = JsArray.sort (byNameAsc collator_compare) X) as E.
  { apply sorted_by_default; intros ->; apply Hn; auto. }
  split; [rewrite E; reflexivity | split; [reflexivity|]].
  rewrite E. split.
  - apply (sort_ordered _ byNameAsc_consistent).
  - apply (sort_keeps_ties _ byNameAsc_consistent).
Qed.

(** C2: in a descending mode the stage orders the records by the named
    count, larger first, and equal counts by the collation of the names,
    ascending; records equal in count and in collation rank keep their input
    order.  With a collation that puts "Аня" before "Борис", the three
    records Аня (5 completed), Борис (5) and Вера (2) come out in that
    order under [completedDesc], in whatever order they go in. *)
Theorem sort_stage_descending
    (X : list UserStatistic) (mode : string) (metric : UserStatistic -> Z) :
  In (mode, metric) desc_modes ->
  collator_compare Sample.Anya Sample.Boris < 0 ->
  StronglySorted (metric_then_name collator_compare metric) (sorted_by X mode) /\
  (forall z,
     filter (same_key collator_compare metric z) (sorted_by X mode) =
     filter (same_key collator_compare metric z) X) /\
  (forall i1 i2 i3 a1 a2 a3 w1 w2 w3 f1 f2 f3 Y,
     Permutation Y
       [Build_UserStatistic i1 Sample.Anya a1 5 w1 f1;
        Build_UserStatistic i2 Sample.Boris a2 5 w2 f2;
        Build_UserStatistic i3 Sample.Vera a3 2 w3 f3] ->
     map name (sorted_by Y "completedDesc") =
     [Sample.Anya; Sample.Boris; Sample.Vera]).
Proof.
  intros Hm Hab. rewrite (sorted_by_desc X mode metric Hm).
  split; [|split].
  - pose proof (sort_ordered _ (desc_comparator_consistent metric) X) as Ho.
    unfold ordered in Ho.
    eapply StronglySorted_ind with
      (P := fun l => StronglySorted (metric_then_name collator_compare metric) l);
      [constructor | | exact Ho].
    intros a l _ IH Hall. constructor; [exact IH|].
    eapply Forall_impl; [|exact Hall].
    intros b Hb. now apply desc_comparator_le.
  - intros z.
    pose proof (sort_keeps_ties _ (desc_comparator_consistent metric) X z) as Hk.
    rewrite (filter_ext _ _ (fun b => eq_sym (desc_comparator_tie metric z b))
               (JsArray.sort (desc_comparator collator_compare metric) X)).
    rewrite (filter_ext _ _ (fun b => eq_sym (desc_comparator_tie metric z b)) X).
    exact Hk.
  - intros i1 i2 i3 a1 a2 a3 w1 w2 w3 f1 f2 f3 Y HY.
    change (sorted_by Y "completedDesc")
      with (JsArray.sort (desc_comparator collator_compare completedTasks) Y).
    rewrite (sort_permuted_strict _ (desc_comparator_consistent completedTasks)
               _ _ HY); [reflexivity|].
    repeat constructor; unfold desc_comparator, or_else; simpl; lia.
Qed.

End SortStage.

(** ** The filter stage *)
Section FilterStage.
Variable toLowerCase : jsstring -> jsstring.

Local Abbreviation filtered := (makeSelectFiltered toLowerCase).

Lemma filter_all {A : Type} (p : A -> bool) (l : list A) :
  (forall x, p x = true) -> filter p l = l.
Proof.
  intros H. induction l as [|x t IH]; simpl; [reflexivity|].
  now rewrite H, IH.
Qed.

Lemma filter_twice {A : Type} (p q : A -> bool) (l : list A) :
  filter q (filter p l) = filter (fun x => p x && q x) l.
Proof.
  induction l as [|x t IH]; simpl; [reflexivity|].
  destruct (p x); simpl; [destruct (q x)|]; now rewrite IH.
Qed.

(** The name test alone, whether or not the query is empty. *)
Lemma filtered_by_name (X : list UserStatistic) (query : jsstring) :
  filtered X query false =
  filter (fun u => includes (toLowerCase (name u)) (toLowerCase (trim query))) X.
Proof.
  unfold makeSelectFiltered.
  destruct (truthy (toLowerCase (trim query))) eqn:E; [reflexivity|].
  apply truthy_false in E. rewrite E. symmetry.
  apply filter_all. intros u. apply includes_empty.
Qed.

Lemma filtered_active (X : list UserStatistic) (query : jsstring) :
  filtered X query true = filter isActive (filtered X query false).
Proof. reflexivity. Qed.

(** The empty string has no letters to change.  This is all the filter
    stage needs to know about lower-casing. *)
Hypothesis toLowerCase_empty : toLowerCase [] = [].


(** C9: with an empty query and [onlyActive] off the filter stage keeps
    every record, and turning [onlyActive] on never makes the result
    longer. *)
Theorem filter_stage_monotone (X : list UserStatistic) (q : jsstring) :
  List.length (filtered X [] false) = List.length X /\
  (List.length (filtered X q true) <= List.length (filtered X q false))%nat.
Proof.
  split.
  - unfold makeSelectFiltered. change (trim []) with (@nil code_unit).
    rewrite toLowerCase_empty. reflexivity.
  - rewrite filtered_active. apply filter_length_le.
Qed.

End FilterStage.

(** ** The paginate stage *)

Lemma segment_from_shift {A : Type} (l : list A) (i a b : Z) :
  segment_from (i + 1) l a b = segment_from i l (a - 1) (b - 1).
Proof.
  revert i. induction l as [|x t IH]; intros i; simpl; [reflexivity|].
  rewrite IH.
  replace (a - 1 <=? i) with (a <=? i + 1)
    by (destruct (Z.leb_spec a (i + 1)), (Z.leb_spec (a - 1) i); lia || reflexivity).
  replace (i <? b - 1) with (i + 1 <? b)
    by (destruct (Z.ltb_spec (i + 1) b), (Z.ltb_spec i (b - 1)); lia || reflexivity).
  reflexivity.
Qed.

Lemma segment_cons {A : Type} (x : A) (t : list A) (a b : Z) :
  segment (x :: t) a b =
  if (a <=? 0) && (0 <? b) then x :: segment t (a - 1) (b - 1)
  else segment t (a - 1) (b - 1).
Proof.
  unfold segment. cbn [segment_from]. now rewrite (segment_from_shift t 0 a b).
Qed.

Lemma segment_firstn_skipn {A : Type} (l : list A) (a b : Z) :
  segment l a b = firstn (Z.to_nat (b - Z.max a 0)) (skipn (Z.to_nat a) l).
Proof.
  revert a b. induction l as [|x t IH]; intros a b.
  - now rewrite skipn_nil, firstn_nil.
  - rewrite segment_cons, IH.
    destruct (Z.leb_spec a 0) as [Ha|Ha]; simpl andb.
    + replace (Z.to_nat a) with 0%nat by lia.
      replace (Z.to_nat (a - 1)) with 0%nat by lia. simpl skipn.
      replace (Z.max (a - 1) 0) with 0 by lia. replace (Z.max a 0) with 0 by lia.
      destruct (Z.ltb_spec 0 b) as [Hb|Hb].
      * replace (Z.to_nat (b - 0)) with (S (Z.to_nat (b - 1 - 0))) by lia.
        reflexivity.
      * replace (Z.to_nat (b - 0)) with 0%nat by lia.
        replace (Z.to_nat (b - 1 - 0)) with 0%nat by lia. reflexivity.
    + replace (Z.to_nat a) with (S (Z.to_nat (a - 1))) by lia. simpl skipn.
      replace (b - 1 - Z.max (a - 1) 0) with (b - Z.max a 0) by lia.
      reflexivity.
Qed.

(** On indices that are not negative, [slice] takes the elements from the
    first index up to, not including, the second. *)
Lemma slice_segment {A : Type} (l : list A) (a b : Z) :
  0 <= a -> 0 <= b -> slice l (Int a) (Int b) = segment l a b.
Proof.
  intros Ha Hb. rewrite segment_firstn_skipn. unfold slice, relativeIndex.
  replace (a <? 0) with false by (symmetry; apply Z.ltb_ge; lia).
  replace (b <? 0) with false by (symmetry; apply Z.ltb_ge; lia).
  replace (Z.max a 0) with a by lia.
  set (len := Z.of_nat (List.length l)).
  destruct (Z_le_gt_dec len a) as [Hal|Hal].
  - rewrite (skipn_all2 l (n := Z.to_nat (Z.min a len))) by lia.
    rewrite (skipn_all2 l (n := Z.to_nat a)) by lia.
    now rewrite !firstn_nil.
  - replace (Z.min a len) with a by lia.
    destruct (Z_le_gt_dec b len) as [Hbl|Hbl].
    + now replace (Z.min b len) with b by lia.
    + replace (Z.min b len) with len by lia.
      rewrite !firstn_all2; [reflexivity | |]; rewrite length_skipn; lia.
Qed.

Lemma ceiling_of_quotient (a n : Z) : 1 <= n -> is_ceiling (- (- a / n)) a n.
Proof.
  intros Hn. unfold is_ceiling.
  replace (0 <? n) with true by (symmetry; apply Z.ltb_lt; lia).
  pose proof (Z.div_mod (- a) n ltac:(lia)) as Hd.
  pose proof (Z.mod_pos_bound (- a) n ltac:(lia)) as Hm.
  nia.
Qed.

Lemma ceil_div_positive (a n : Z) :
  1 <= n -> Math_ceil_div a (Int n) = Int (- (- a / n)).
Proof. intros Hn. destruct n; try lia. reflexivity. Qed.

(** C1, for page sizes from 1 on: the pagination of [X] at the requested
    page [p] with [n] records a page has [total] the length of [X],
    [totalPages] the larger of 1 and the quotient [total / n] rounded up,
    [currentPage] the requested page brought into the range from 1 to
    [totalPages] (whatever integer is requested), and [data] the records of
    [X] at the indices from [(currentPage - 1) * n] up to, not including,
    [currentPage * n]; there are none when [X] is empty. *)
Theorem paginate_stage_exact (X : list UserStatistic) (p n : Z) :
  1 <= n -> paginates X p n (makeSelectPaginated X (Int p) (Int n)).
Proof.
  intros Hn. unfold paginates, makeSelectPaginated. cbn [Page.total Page.totalPages
    Page.currentPage Page.data].
  split; [reflexivity|].
  set (total := Z.of_nat (List.length X)).
  exists (- (- total / n)). split; [now apply ceiling_of_quotient|].
  rewrite ceil_div_positive by assumption.
  cbv zeta. cbn [Math_max Math_min sub mul].
  set (pages := Z.max 1 (- (- total / n))).
  replace (Z.min (Z.max 1 p) pages) with (clamp p 1 pages) by (unfold clamp; lia).
  assert (1 <= clamp p 1 pages) by (unfold clamp; lia).
  repeat split.
  - apply slice_segment; nia.
  - intros H0. destruct X; [|subst total; simpl in H0; lia].
    unfold slice. now rewrite skipn_nil, firstn_nil.
Qed.

(** C6, as the code has it: the page size is used as it comes.  The number
    of pages is [Infinity] exactly for a page size of zero on a list that is
    not empty, and [NaN] exactly for a page size that is [NaN] or for zero on
    the empty list; for every integer page size from 1 on it is an integer,
    at least 1, and zero is never divided by. *)
Theorem paginate_page_size_unchecked
    (X : list UserStatistic) (page pageSize : number) :
  let pages := Page.totalPages (makeSelectPaginated X page pageSize) in
  (pages = PosInf <-> pageSize = Int 0 /\ X <> []) /\
  (pages = NaN <-> pageSize = NaN \/ (pageSize = Int 0 /\ X = [])) /\
  (forall n, pageSize = Int n -> 1 <= n ->
     exists k, pages = Int k /\ 1 <= k /\
               is_ceiling (- (- Z.of_nat (List.length X) / n)) (Z.of_nat (List.length X)) n /\
               k = Z.max 1 (- (- Z.of_nat (List.length X) / n))).
Proof.
  cbv zeta. unfold makeSelectPaginated. cbn [Page.totalPages].
  split; [|split].
  - destruct pageSize as [[|n|n]| | |]; simpl;
      try (split; [discriminate | intros [E _]; discriminate]).
    destruct X as [|u X]; simpl.
    + split; [discriminate | intros [_ E]; now elim E].
    + split; [intros _; split; [reflexivity | discriminate] | reflexivity].
  - destruct pageSize as [[|n|n]| | |]; simpl;
      try (split; [discriminate | intros [E | [E _]]; discriminate]).
    + destruct X as [|u X]; simpl.
      * split; [intros _; right; now split | reflexivity].
      * split; [discriminate | intros [E | [_ E]]; discriminate].
    + split; [intros _; now left | reflexivity].
  - intros n -> Hn. rewrite ceil_div_positive by assumption. simpl Math_max.
    eexists. split; [reflexivity|]. split; [lia|].
    split; [now apply ceiling_of_quotient | reflexivity].
Qed.

(** ** The aggregate stage: sums and rates *)

Lemma nearest_spec (p q : Z) :
  0 < q -> - q <= 2 * (p - JsDouble.nearest p q * q) < q.
Proof.
  intros Hq. unfold JsDouble.nearest.
  pose proof (Z.div_mod (2 * p + q) (2 * q) ltac:(lia)) as Hd.
  pose proof (Z.mod_pos_bound (2 * p + q) (2 * q) ltac:(lia)) as Hm.
  nia.
Qed.

Lemma fraction_positive (m : positive) (e : Z) :
  0 < fst (JsDouble.fraction m e) /\ 0 < snd (JsDouble.fraction m e).
Proof.
  unfold JsDouble.fraction. destruct (Z.leb_spec 0 e); cbn [fst snd].
  - split; [|lia]. apply Z.mul_pos_pos; [lia | apply Z.pow_pos_nonneg; lia].
  - split; [lia | apply Z.pow_pos_nonneg; lia].
Qed.

(** ** Doubles that hold integers *)

Lemma digits2_pos_spec (p : positive) :
  2 ^ (Zpos (digits2_pos p) - 1) <= Zpos p < 2 ^ Zpos (digits2_pos p).
Proof.
  induction p as [p IH | p IH |]; cbn [digits2_pos].
  - rewrite Pos2Z.inj_succ, Z.pow_succ_r by lia.
    replace (Z.succ (Zpos (digits2_pos p)) - 1)
      with (Z.succ (Zpos (digits2_pos p) - 1)) by lia.
    rewrite Z.pow_succ_r by lia. lia.
  - rewrite Pos2Z.inj_succ, Z.pow_succ_r by lia.
    replace (Z.succ (Zpos (digits2_pos p)) - 1)
      with (Z.succ (Zpos (digits2_pos p) - 1)) by lia.
    rewrite Z.pow_succ_r by lia. lia.
  - simpl. lia.
Qed.

Lemma digits2_pos_unique (p : positive) (d : Z) :
  2 ^ (d - 1) <= Zpos p < 2 ^ d -> Zpos (digits2_pos p) = d.
Proof.
  intros [Hlo Hhi]. pose proof (digits2_pos_spec p) as [Hlo' Hhi'].
  assert (0 < d).
  { destruct (Z.ltb_spec 0 d) as [|Hd]; [assumption|].
    assert (2 ^ d <= 2 ^ 0) by (apply Z.pow_le_mono_r; lia).
    simpl in *. lia. }
  destruct (Z.lt_trichotomy (Zpos (digits2_pos p)) d) as [Hlt | [Heq | Hgt]].
  - assert (2 ^ Zpos (digits2_pos p) <= 2 ^ (d - 1)) by (apply Z.pow_le_mono_r; lia).
    lia.
  - assumption.
  - assert (2 ^ d <= 2 ^ (Zpos (digits2_pos p) - 1)) by (apply Z.pow_le_mono_r; lia).
    lia.
Qed.

Lemma digits2_pos_shift (p q : positive) (k : Z) :
  0 <= k -> Zpos q = Zpos p * 2 ^ k ->
  Zpos (digits2_pos q) = Zpos (digits2_pos p) + k.
Proof.
  intros Hk Hq. apply digits2_pos_unique. rewrite Hq.
  pose proof (digits2_pos_spec p) as [Hlo Hhi].
  replace (Zpos (digits2_pos p) + k - 1) with (Zpos (digits2_pos p) - 1 + k) by lia.
  rewrite !Z.pow_add_r by lia.
  assert (0 < 2 ^ k) by (apply Z.pow_pos_nonneg; lia).
  split; nia.
Qed.

Lemma iter_xO_spec (d m : positive) : Zpos (Pos.iter xO m d) = Zpos m * 2 ^ Zpos d.
Proof.
  revert m. induction d as [d IH | d IH |]; intros m; cbn [Pos.iter].
  - rewrite (Pos2Z.inj_xO (Pos.iter _ _ _)), !IH.
    replace (Zpos d~1) with (Zpos d + Zpos d + 1) by lia.
    rewrite !Z.pow_add_r by lia. simpl (2 ^ 1). lia.
  - rewrite !IH. replace (Zpos d~0) with (Zpos d + Zpos d) by lia.
    rewrite !Z.pow_add_r by lia. lia.
  - rewrite Pos2Z.inj_xO. simpl (2 ^ 1). lia.
Qed.

Lemma shr_1_exact (n m : positive) :
  iter_pos shr_1 n {| shr_m := Zpos (Pos.iter xO m n); shr_r := false; shr_s := false |} =
  {| shr_m := Zpos m; shr_r := false; shr_s := false |}.
Proof.
  revert m. induction n as [n IH | n IH |]; intros m; cbn [iter_pos Pos.iter].
  - cbn [shr_1 orb]. rewrite !IH. reflexivity.
  - rewrite !IH. reflexivity.
  - reflexivity.
Qed.

Lemma fexp_canonical (m : positive) (e : Z) :
  canonical_mantissa prec emax m e = true ->
  fexp prec emax (Zpos (digits2_pos m) + e) = e.
Proof. unfold canonical_mantissa. apply Z.eqb_eq. Qed.

Lemma shr_fexp_canonical (m : positive) (e : Z) :
  canonical_mantissa prec emax m e = true ->
  shr_fexp prec emax (Zpos m) e loc_Exact =
  ({| shr_m := Zpos m; shr_r := false; shr_s := false |}, e).
Proof.
  intros Hc. unfold shr_fexp. cbn [Zdigits2].
  rewrite (fexp_canonical _ _ Hc), Z.sub_diag. reflexivity.
Qed.

Lemma binary_round_aux_canonical (s : bool) (m : positive) (e : Z) :
  bounded prec emax m e = true ->
  binary_round_aux prec emax s (Zpos m) e loc_Exact = S754_finite s m e.
Proof.
  unfold bounded. intros Hb. apply andb_true_iff in Hb as [Hc He].
  unfold binary_round_aux. rewrite (shr_fexp_canonical _ _ Hc).
  cbn [shr_m loc_of_shr_record round_nearest_even].
  rewrite (shr_fexp_canonical _ _ Hc). cbn [shr_m]. rewrite He. reflexivity.
Qed.

(** A value that a double holds is rounded to that double. *)
Lemma binary_round_exact (s : bool) (S : positive) (e : Z) (m' : positive) (e' : Z) :
  bounded prec emax m' e' = true ->
  Zpos S * 2 ^ (e - Z.min e e') = Zpos m' * 2 ^ (e' - Z.min e e') ->
  binary_round prec emax s S e = S754_finite s m' e'.
Proof.
  intros Hb Hv.
  assert (Hc : canonical_mantissa prec emax m' e' = true).
  { unfold bounded in Hb. apply andb_true_iff in Hb. apply Hb. }
  assert (Hd : Zpos (digits2_pos S) + e = Zpos (digits2_pos m') + e').
  { destruct (Z.le_ge_cases e e') as [Hle | Hge].
    - rewrite Z.min_l, Z.sub_diag, Z.pow_0_r, Z.mul_1_r in Hv by lia.
      rewrite (digits2_pos_shift m' S (e' - e)); [lia | lia | assumption].
    - rewrite Z.min_r, Z.sub_diag, Z.pow_0_r, Z.mul_1_r in Hv by lia.
      rewrite (digits2_pos_shift S m' (e - e')); [lia | lia | congruence]. }
  unfold binary_round, shl_align. rewrite Hd, (fexp_canonical _ _ Hc).
  destruct (e' - e) as [| p | p] eqn:E.
  - assert (e' = e) by lia. subst e'.
    rewrite Z.min_id, Z.sub_diag, Z.pow_0_r, !Z.mul_1_r in Hv.
    injection Hv as ->. apply binary_round_aux_canonical, Hb.
  - rewrite Z.min_l, Z.sub_diag, Z.pow_0_r, Z.mul_1_r, E in Hv by lia.
    rewrite <- iter_xO_spec in Hv. injection Hv as ->.
    unfold binary_round_aux, shr_fexp at 1. cbn [Zdigits2 shr_record_of_loc].
    rewrite (digits2_pos_shift m' (Pos.iter xO m' p) (Zpos p)) in *
      by (try lia; apply iter_xO_spec).
    replace (Zpos (digits2_pos m') + Zpos p + e)
      with (Zpos (digits2_pos m') + e') by lia.
    rewrite (fexp_canonical _ _ Hc), E. cbn [shr]. rewrite shr_1_exact.
    cbn [shr_m loc_of_shr_record round_nearest_even].
    replace (e + Zpos p) with e' by lia.
    rewrite (shr_fexp_canonical _ _ Hc). cbn [shr_m].
    unfold bounded in Hb. apply andb_true_iff in Hb as [_ ->]. reflexivity.
  - rewrite Z.min_r, Z.sub_diag, Z.pow_0_r, Z.mul_1_r in Hv by lia.
    replace (e - e') with (Zpos p) in Hv by lia.
    rewrite <- iter_xO_spec in Hv. injection Hv as ->.
    apply binary_round_aux_canonical, Hb.
Qed.

Lemma fexp_digits (d : Z) : 0 < d <= 53 -> fexp prec emax (53 + (d - 53)) = d - 53.
Proof. intros Hd. unfold fexp, SpecFloat.emin, prec, emax. lia. Qed.

(** The double that holds a positive integer below 2^53. *)
Lemma integer_double (v : positive) :
  Zpos v < 2 ^ 53 ->
  exists m' e',
    bounded prec emax m' e' = true /\ e' <= 0 /\ Zpos m' = Zpos v * 2 ^ (- e').
Proof.
  intros Hv. pose proof (digits2_pos_spec v) as [Hlo _].
  set (d := Zpos (digits2_pos v)) in *.
  assert (Hd : 0 < d <= 53).
  { split; [unfold d; lia|].
    destruct (Z.leb_spec d 53) as [|Hgt]; [assumption|].
    assert (2 ^ 53 <= 2 ^ (d - 1)) by (apply Z.pow_le_mono_r; lia). lia. }
  assert (Hp : 0 < 2 ^ (53 - d)) by (apply Z.pow_pos_nonneg; lia).
  exists (Z.to_pos (Zpos v * 2 ^ (53 - d))), (d - 53).
  assert (Hm : Zpos (Z.to_pos (Zpos v * 2 ^ (53 - d))) = Zpos v * 2 ^ (53 - d))
    by (apply Z2Pos.id; lia).
  split; [|split].
  - unfold bounded, canonical_mantissa.
    rewrite (digits2_pos_shift v _ (53 - d)) by (lia || exact Hm).
    fold d. replace (d + (53 - d)) with 53 by lia.
    rewrite (fexp_digits d Hd), Z.eqb_refl. cbn [andb].
    apply Z.leb_le. unfold prec, emax. lia.
  - lia.
  - rewrite Hm. f_equal. f_equal. lia.
Qed.

Lemma pow2_pos (k : Z) : 0 <= k -> 0 < 2 ^ k.
Proof. intros. apply Z.pow_pos_nonneg; lia. Qed.

(** Rounding [S * 2^e] when it is an integer of magnitude below 2^53 gives
    the double of that integer. *)
Lemma binary_round_integer (s : bool) (v S : positive) (e : Z) :
  Zpos v < 2 ^ 53 -> e <= 0 -> Zpos S = Zpos v * 2 ^ (- e) ->
  exists m' e',
    binary_round prec emax s S e = S754_finite s m' e' /\
    binary_round prec emax s v 0 = S754_finite s m' e' /\
    bounded prec emax m' e' = true /\ e' <= 0 /\ Zpos m' = Zpos v * 2 ^ (- e').
Proof.
  intros Hv He HS. destruct (integer_double v Hv) as (m' & e' & Hb & He' & Hm).
  exists m', e'. repeat split; try assumption.
  - apply binary_round_exact; [assumption|].
    rewrite HS, Hm. destruct (Z.le_ge_cases e e').
    + rewrite Z.min_l, Z.sub_diag, Z.pow_0_r, Z.mul_1_r by lia.
      rewrite <- Z.mul_assoc, <- Z.pow_add_r by lia. f_equal. f_equal. lia.
    + rewrite Z.min_r, Z.sub_diag, Z.pow_0_r, Z.mul_1_r by lia.
      rewrite <- Z.mul_assoc, <- Z.pow_add_r by lia. f_equal. f_equal. lia.
  - apply binary_round_exact; [assumption|].
    rewrite Z.min_r, Z.sub_diag, Z.pow_0_r, Z.mul_1_r, Z.sub_0_l by lia. congruence.
Qed.

Lemma normalize_integer (z S e : Z) :
  Z.abs z < 2 ^ 53 -> e <= 0 -> S = z * 2 ^ (- e) ->
  binary_normalize prec emax S e false = binary_normalize prec emax z 0 false /\
  valid_binary (binary_normalize prec emax z 0 false) = true.
Proof.
  intros Hz He HS. pose proof (pow2_pos (- e) ltac:(lia)) as Hp.
  destruct z as [| v | v].
  - subst S. simpl. split; reflexivity.
  - destruct S as [| S | S]; try lia.
    destruct (binary_round_integer false v S e) as (m' & e' & H1 & H2 & Hb & _);
      try assumption.
    cbn [binary_normalize]. rewrite H1, H2. split; [reflexivity | exact Hb].
  - destruct S as [| S | S]; try lia.
    destruct (binary_round_integer true v S e) as (m' & e' & H1 & H2 & Hb & _);
      try assumption; try lia.
    cbn [binary_normalize]. rewrite H1, H2. split; [reflexivity | exact Hb].
Qed.

Lemma Prim2SF_of_Z (z : Z) :
  Z.abs z < 2 ^ 53 -> Prim2SF (JsDouble.of_Z z) = binary_normalize prec emax z 0 false.
Proof.
  intros Hz. unfold JsDouble.of_Z. apply Prim2SF_SF2Prim.
  apply (normalize_integer z z 0); [assumption | lia | simpl; lia].
Qed.

(** The shape of the double of a non-zero integer. *)
Lemma of_Z_shape (z : Z) :
  0 < Z.abs z < 2 ^ 53 ->
  exists m e,
    Prim2SF (JsDouble.of_Z z) = S754_finite (z <? 0) m e /\ e <= 0 /\
    Zpos m = Z.abs z * 2 ^ (- e).
Proof.
  intros Hz. rewrite Prim2SF_of_Z by lia. destruct z as [| v | v]; [lia | |].
  - destruct (binary_round_integer false v v 0) as (m' & e' & H1 & _ & _ & He & Hm);
      try (simpl; lia).
    exists m', e'. cbn [binary_normalize]. rewrite H1. auto.
  - destruct (binary_round_integer true v v 0) as (m' & e' & H1 & _ & _ & He & Hm);
      try (simpl; lia).
    exists m', e'. cbn [binary_normalize]. rewrite H1. auto.
Qed.

Lemma shl_align_fst (m : positive) (e e' : Z) :
  e' <= e -> Zpos (fst (shl_align m e e')) = Zpos m * 2 ^ (e - e').
Proof.
  intros He. unfold shl_align. destruct (e' - e) as [| p | p] eqn:E; try lia.
  - replace (e - e') with 0 by lia. simpl. lia.
  - cbn [fst]. rewrite iter_xO_spec. f_equal. f_equal. lia.
Qed.

(** Addition is exact on non-negative integers while the sum stays below
    2^53. *)
Lemma of_Z_add (a b : Z) :
  0 <= a -> 0 <= b -> a + b < 2 ^ 53 -> (JsDouble.of_Z a + JsDouble.of_Z b)%float = JsDouble.of_Z (a + b).
Proof.
  intros Ha Hb Hab. apply Prim2SF_inj.
  rewrite add_spec, (Prim2SF_of_Z (a + b)) by lia. unfold SF64add.
  destruct (Z.eq_dec a 0) as [-> | Ha0]; [|destruct (Z.eq_dec b 0) as [-> | Hb0]].
  - rewrite (Prim2SF_of_Z 0) by (simpl; lia). rewrite Z.add_0_l.
    rewrite (Prim2SF_of_Z b) by lia. destruct b as [| v | v]; try lia.
    + reflexivity.
    + cbn [binary_normalize].
      destruct (binary_round_integer false v v 0) as (m' & e' & H1 & _);
        try (simpl; lia).
      rewrite H1. reflexivity.
  - rewrite (Prim2SF_of_Z 0) by (simpl; lia). rewrite Z.add_0_r.
    rewrite (Prim2SF_of_Z a) by lia. destruct a as [| v | v]; try lia.
    cbn [binary_normalize].
    destruct (binary_round_integer false v v 0) as (m' & e' & H1 & _);
      try (simpl; lia).
    rewrite H1. reflexivity.
  - destruct (of_Z_shape a) as (ma & ea & -> & Hea & Hma); [lia|].
    destruct (of_Z_shape b) as (mb & eb & -> & Heb & Hmb); [lia|].
    replace (a <? 0) with false by (symmetry; apply Z.ltb_ge; lia).
    replace (b <? 0) with false by (symmetry; apply Z.ltb_ge; lia).
    cbn [SFadd cond_Zopp].
    apply normalize_integer; [lia | lia |].
    rewrite !shl_align_fst by lia. rewrite Hma, Hmb, !Z.abs_eq by lia.
    rewrite <- !Z.mul_assoc, <- !Z.pow_add_r by lia.
    replace (- ea + (ea - Z.min ea eb)) with (- Z.min ea eb) by lia.
    replace (- eb + (eb - Z.min ea eb)) with (- Z.min ea eb) by lia.
    lia.
Qed.

Lemma of_Z_holds (z : Z) : Z.abs z < 2 ^ 53 -> holds_integer (JsDouble.of_Z z) z.
Proof.
  intros Hz. unfold holds_integer, has_value. split; [lia|].
  destruct (Z.eq_dec z 0) as [-> | Hnz]; [reflexivity|].
  destruct (of_Z_shape z) as (m & e & -> & He & Hm); [lia|].
  rewrite (Z.max_r e 0), (Z.max_l (- e) 0), Z.pow_0_r, !Z.mul_1_r by lia.
  destruct (Z.ltb_spec z 0); rewrite Hm; [rewrite Z.abs_neq | rewrite Z.abs_eq]; lia.
Qed.

Lemma holds_zero (s : bool) : holds_integer (JsDouble.zero s) 0.
Proof. destruct s; split; [lia | reflexivity | lia | reflexivity]. Qed.

(** The mantissa of a double has at most 53 bits. *)
Lemma mantissa_bound (x : float) (s : bool) (m : positive) (e : Z) :
  Prim2SF x = S754_finite s m e -> Zpos m < 2 ^ 53.
Proof.
  intros Hx. pose proof (Prim2SF_valid x) as Hv. rewrite Hx in Hv.
  cbn [SpecFloat.valid_binary] in Hv. unfold bounded in Hv.
  apply andb_true_iff in Hv as [Hc _]. apply fexp_canonical in Hc.
  unfold fexp, SpecFloat.emin, prec, emax in Hc.
  pose proof (digits2_pos_spec m) as [_ Hhi].
  assert (2 ^ Zpos (digits2_pos m) <= 2 ^ 53) by (apply Z.pow_le_mono_r; lia).
  lia.
Qed.

Lemma truthy_of_Z (z : Z) :
  0 <= z < 2 ^ 53 -> JsDouble.truthy (JsDouble.of_Z z) = negb (z =? 0).
Proof.
  intros Hz. destruct (Z.eqb_spec z 0) as [-> | Hnz]; [reflexivity|].
  destruct (of_Z_shape z) as (m & e & Hx & _); [lia|].
  replace (z <? 0) with false in Hx by (symmetry; apply Z.ltb_ge; lia).
  unfold JsDouble.truthy, is_zero, is_nan. rewrite !eqb_spec, Hx.
  change (Prim2SF zero) with (S754_zero false).
  unfold SFeqb. cbn [SFcompare]. rewrite Z.compare_refl, Pos.compare_cont_refl.
  reflexivity.
Qed.

(** [Math.round] rounds to the nearest integer. *)
Lemma Math_round_spec (x : float) : rounded_to_integer x (JsDouble.Math_round x).
Proof.
  unfold rounded_to_integer, JsDouble.Math_round.
  destruct (Prim2SF x) as [s | s | | s m e] eqn:Ex; try reflexivity.
  - exists 0, 1, 0. unfold holds_integer, has_value, nearest_integer.
    rewrite Ex. lia.
  - destruct (Z.leb_spec 0 e) as [He | He].
    + exists ((if s then - Zpos m else Zpos m) * 2 ^ e), 1,
        ((if s then - Zpos m else Zpos m) * 2 ^ e).
      unfold holds_integer, has_value, nearest_integer. rewrite Ex.
      rewrite (Z.max_l e 0), (Z.max_r (- e) 0), Z.pow_0_r by lia. lia.
    + unfold JsDouble.fraction. replace (0 <=? e) with false
        by (symmetry; apply Z.leb_gt; lia).
      pose proof (pow2_pos (- e) ltac:(lia)) as Hq.
      set (q := 2 ^ (- e)) in *. set (p := if s then - Zpos m else Zpos m).
      pose proof (nearest_spec p q Hq) as Hn.
      exists p, q, (JsDouble.nearest p q). split; [|split].
      * unfold has_value. rewrite Ex. fold p.
        rewrite (Z.max_r e 0), (Z.max_l (- e) 0), Z.pow_0_r by lia. fold q. lia.
      * unfold nearest_integer. lia.
      * destruct (Z.eqb_spec (JsDouble.nearest p q) 0) as [-> | Hnz];
          [apply holds_zero|].
        apply of_Z_holds.
        pose proof (mantissa_bound x s m e Ex) as Hm.
        assert (2 <= q).
        { unfold q. replace (- e) with (1 + (- e - 1)) by lia.
          rewrite Z.pow_add_r by lia.
          pose proof (pow2_pos (- e - 1) ltac:(lia)). simpl (2 ^ 1). lia. }
        assert (Z.abs p < 2 ^ 53) by (unfold p; destruct s; lia).
        apply Z.abs_lt. split; nia.
Qed.

(** [toFixed(2)] read back as a number rounds to two decimals. *)
Lemma toFixed2_spec (x : float) :
  rounded_to_hundredths x (JsDouble.ToNumber (JsDouble.toFixed2 x)).
Proof.
  unfold rounded_to_hundredths, JsDouble.toFixed2.
  destruct (Prim2SF x) as [s | s | | s m e] eqn:Ex; try reflexivity.
  - exists 0, 1. split; [unfold has_value; rewrite Ex; lia|].
    cbn [Z.abs]. replace (10 ^ 21 * 1 <=? 0) with false by reflexivity.
    exists 0. split; [unfold nearest_integer; lia | apply (holds_zero false)].
  - pose proof (fraction_positive m e) as [Hp Hq].
    assert (Hv : has_value x
                   ((if s then -1 else 1) * fst (JsDouble.fraction m e))
                   (snd (JsDouble.fraction m e))).
    { unfold has_value. rewrite Ex. split; [assumption|].
      unfold JsDouble.fraction. destruct (Z.leb_spec 0 e); cbn [fst snd].
      - rewrite (Z.max_l e 0), (Z.max_r (- e) 0), Z.pow_0_r by lia. destruct s; lia.
      - rewrite (Z.max_r e 0), (Z.max_l (- e) 0), Z.pow_0_r by lia. destruct s; lia. }
    destruct (JsDouble.fraction m e) as [p q]. cbn [fst snd] in *.
    exists ((if s then -1 else 1) * p), q. split; [exact Hv|].
    replace (Z.abs ((if s then -1 else 1) * p)) with p by (destruct s; lia).
    destruct (10 ^ 21 * q <=? p); [reflexivity|].
    exists (JsDouble.nearest (100 * p) q). split.
    + pose proof (nearest_spec (100 * p) q Hq). unfold nearest_integer. lia.
    + replace ((if s then -1 else 1) * p <? 0) with s
        by (destruct s; symmetry; [apply Z.ltb_lt | apply Z.ltb_ge]; lia).
      destruct (JsDouble.nearest (100 * p) q); cbn [JsDouble.ToNumber];
        [apply holds_zero | reflexivity | apply holds_zero].
Qed.

(** ** The aggregate stage: the loops *)

Lemma sum_of_nonneg (f : UserStatistic -> Z) (X : list UserStatistic) :
  Forall (fun u => 0 <= f u) X -> 0 <= sum_of f X.
Proof. induction 1; simpl; lia. Qed.

Lemma sums_nonneg (X : list UserStatistic) :
  Forall counts_nonneg X ->
  0 <= sum_of completedTasks X /\ 0 <= sum_of inWorkTasks X /\
  0 <= sum_of failedTasks X.
Proof.
  intros Hnn. repeat split; apply sum_of_nonneg; eapply Forall_impl; try exact Hnn;
    intros u (? & ? & ?); assumption.
Qed.

(** The loop of [selectGlobalKpis] adds exactly while the sums stay below
    2^53. *)
Lemma kpi_loop (X : list UserStatistic) (c w f : Z) :
  Forall counts_nonneg X -> 0 <= c -> 0 <= w -> 0 <= f ->
  c + sum_of completedTasks X < 2 ^ 53 ->
  w + sum_of inWorkTasks X < 2 ^ 53 ->
  f + sum_of failedTasks X < 2 ^ 53 ->
  fold_left
    (fun '(completed, inWork, failed) u =>
       ((completed + JsDouble.of_Z (completedTasks u))%float,
        (inWork + JsDouble.of_Z (inWorkTasks u))%float,
        (failed + JsDouble.of_Z (failedTasks u))%float))
    X (JsDouble.of_Z c, JsDouble.of_Z w, JsDouble.of_Z f) =
  (JsDouble.of_Z (c + sum_of completedTasks X),
   JsDouble.of_Z (w + sum_of inWorkTasks X),
   JsDouble.of_Z (f + sum_of failedTasks X)).
Proof.
  intros Hnn. revert c w f.
  induction Hnn as [|u X (Hc & Hw & Hf) Hnn IH]; intros c w f Hc0 Hw0 Hf0; simpl.
  - intros _ _ _. now rewrite !Z.add_0_r.
  - intros H1 H2 H3. destruct (sums_nonneg X Hnn) as (? & ? & ?).
    rewrite !of_Z_add by lia. rewrite IH by lia.
    f_equal; [f_equal|]; f_equal; lia.
Qed.

(** So does the reduce of [selectGlobalTotals]. *)
Lemma totals_loop (X : list UserStatistic) (c w f : Z) :
  Forall counts_nonneg X -> 0 <= c -> 0 <= w -> 0 <= f ->
  c + sum_of completedTasks X < 2 ^ 53 ->
  w + sum_of inWorkTasks X < 2 ^ 53 ->
  f + sum_of failedTasks X < 2 ^ 53 ->
  fold_left
    (fun acc u =>
       {| Totals.completed :=
            (Totals.completed acc + JsDouble.of_Z (completedTasks u))%float;
          Totals.inWork := (Totals.inWork acc + JsDouble.of_Z (inWorkTasks u))%float;
          Totals.failed := (Totals.failed acc + JsDouble.of_Z (failedTasks u))%float |})
    X
    {| Totals.completed := JsDouble.of_Z c; Totals.inWork := JsDouble.of_Z w;
       Totals.failed := JsDouble.of_Z f |} =
  {| Totals.completed := JsDouble.of_Z (c + sum_of completedTasks X);
     Totals.inWork := JsDouble.of_Z (w + sum_of inWorkTasks X);
     Totals.failed := JsDouble.of_Z (f + sum_of failedTasks X) |}.
Proof.
  intros Hnn. revert c w f.
  induction Hnn as [|u X (Hc & Hw & Hf) Hnn IH]; intros c w f Hc0 Hw0 Hf0; simpl.
  - intros _ _ _. now rewrite !Z.add_0_r.
  - intros H1 H2 H3. destruct (sums_nonneg X Hnn) as (? & ? & ?).
    rewrite !of_Z_add by lia. rewrite IH by lia.
    f_equal; f_equal; lia.
Qed.

(** The numbers of the KPIs in terms of the three sums, while their total
    stays below 2^53. *)
Lemma kpis_numbers
    (collator_compare : jsstring -> jsstring -> Z) (X : list UserStatistic) :
  Forall counts_nonneg X ->
  sum_of completedTasks X + sum_of inWorkTasks X + sum_of failedTasks X < 2 ^ 53 ->
  let k := selectGlobalKpis collator_compare X in
  let completed := sum_of completedTasks X in
  let total := completed + sum_of inWorkTasks X + sum_of failedTasks X in
  let users := Z.of_nat (List.length X) in
  Kpis.users k = users /\ Kpis.total k = JsDouble.of_Z total /\
  Kpis.completed k = JsDouble.of_Z completed /\
  Kpis.inWork k = JsDouble.of_Z (sum_of inWorkTasks X) /\
  Kpis.failed k = JsDouble.of_Z (sum_of failedTasks X) /\
  Kpis.doneRate k =
    (if total =? 0 then 0%float
     else JsDouble.Math_round
            (JsDouble.of_Z completed / JsDouble.of_Z total * 100)%float) /\
  Kpis.avgCompletedPerUser k =
    (if users =? 0 then 0%float
     else JsDouble.ToNumber
            (JsDouble.toFixed2 (JsDouble.of_Z completed / JsDouble.of_Z users)%float)).
Proof.
  intros Hnn Hb. cbv zeta. destruct (sums_nonneg X Hnn) as (Hc & Hw & Hf).
  unfold selectGlobalKpis.
  change (0%float, 0%float, 0%float)
    with (JsDouble.of_Z 0, JsDouble.of_Z 0, JsDouble.of_Z 0).
  rewrite kpi_loop by (assumption || lia). rewrite !Z.add_0_l.
  rewrite !of_Z_add by lia.
  cbn [Kpis.completed Kpis.inWork Kpis.failed Kpis.total Kpis.users
       Kpis.doneRate Kpis.avgCompletedPerUser].
  rewrite truthy_of_Z by lia.
  destruct (_ =? 0); repeat split.
Qed.

(** The totals of the donut in terms of the three sums. *)
Lemma totals_numbers (X : list UserStatistic) :
  Forall counts_nonneg X ->
  sum_of completedTasks X + sum_of inWorkTasks X + sum_of failedTasks X < 2 ^ 53 ->
  selectGlobalTotals X =
  {| Totals.completed := JsDouble.of_Z (sum_of completedTasks X);
     Totals.inWork := JsDouble.of_Z (sum_of inWorkTasks X);
     Totals.failed := JsDouble.of_Z (sum_of failedTasks X) |}.
Proof.
  intros Hnn Hb. destruct (sums_nonneg X Hnn) as (Hc & Hw & Hf).
  unfold selectGlobalTotals.
  change 0%float with (JsDouble.of_Z 0).
  rewrite totals_loop by (assumption || lia). now rewrite !Z.add_0_l.
Qed.

(** C5: the sums are sums of doubles, exact below 2^53.  For records
    whose counts are not negative and sum, all three kinds together, to less
    than 2^53, in an array (fewer than 2^32 records): the totals of the
    aggregate stage are the doubles that hold the sums of the three counts
    over all the records it is given (it is given the whole collection, not
    a filtered one), and [total] holds their sum.  [doneRate] is the integer
    nearest to the exact value of the double [completed / total * 100] (of
    two equally near the larger) when the total is positive, and 0
    otherwise.  [avgCompletedPerUser] is, when there are users, the double
    [completed / users] rounded to two decimals: with [n] the integer
    nearest to a hundred times its exact value, the double of [n / 100]; it
    is 0 when there are no users.  The quotients and the product are those
    of binary64, not of the rationals. *)
Theorem aggregate_totals_and_rates
    (collator_compare : jsstring -> jsstring -> Z) (X : list UserStatistic) :
  Forall counts_nonneg X ->
  sum_of completedTasks X + sum_of inWorkTasks X + sum_of failedTasks X < 2 ^ 53 ->
  Z.of_nat (List.length X) < 2 ^ 32 ->
  let k := selectGlobalKpis collator_compare X in
  let t := selectGlobalTotals X in
  let completed := sum_of completedTasks X in
  let inWork := sum_of inWorkTasks X in
  let failed := sum_of failedTasks X in
  let total := completed + inWork + failed in
  let users := Z.of_nat (List.length X) in
  (holds_integer (Totals.completed t) completed /\
   holds_integer (Totals.inWork t) inWork /\
   holds_integer (Totals.failed t) failed) /\
  (holds_integer (Kpis.completed k) completed /\
   holds_integer (Kpis.inWork k) inWork /\
   holds_integer (Kpis.failed k) failed /\
   holds_integer (Kpis.total k) total /\ Kpis.users k = users) /\
  (if 0 <? total
   then rounded_to_integer
          (Kpis.completed k / Kpis.total k * 100)%float (Kpis.doneRate k)
   else Kpis.doneRate k = 0%float) /\
  (if 0 <? users
   then exists U,
          holds_integer U users /\
          rounded_to_hundredths (Kpis.completed k / U)%float
            (Kpis.avgCompletedPerUser k)
   else Kpis.avgCompletedPerUser k = 0%float).
Proof.
  intros Hnn Hb Hlen. cbv zeta.
  destruct (sums_nonneg X Hnn) as (Hc & Hw & Hf).
  pose proof (kpis_numbers collator_compare X Hnn Hb) as Hk. cbv zeta in Hk.
  destruct Hk as (-> & -> & -> & -> & -> & -> & ->).
  rewrite (totals_numbers X Hnn Hb). cbn [Totals.completed Totals.inWork Totals.failed].
  split; [|split; [|split]].
  - repeat split; apply of_Z_holds; lia.
  - repeat split; apply of_Z_holds; lia.
  - destruct (Z.eqb_spec (sum_of completedTasks X + sum_of inWorkTasks X
                          + sum_of failedTasks X) 0) as [E|E].
    + rewrite E. reflexivity.
    + replace (0 <? _) with true by (symmetry; apply Z.ltb_lt; lia).
      apply Math_round_spec.
  - destruct (Z.eqb_spec (Z.of_nat (List.length X)) 0) as [E|E].
    + rewrite E. reflexivity.
    + replace (0 <? _) with true by (symmetry; apply Z.ltb_lt; lia).
      exists (JsDouble.of_Z (Z.of_nat (List.length X))). split.
      * apply of_Z_holds. lia.
      * apply toFixed2_spec.
Qed.

(** ** The aggregate stage: top and leaderboard *)

Lemma slice_first_five {A : Type} (l : list A) :
  slice l (Int 0) (Int 5) = firstn 5 l.
Proof.
  rewrite slice_segment by lia. now rewrite segment_firstn_skipn.
Qed.

Lemma nth_error_mapi_from {A B : Type} (f : A -> Z -> B) (l : list A) (i : Z) (j : nat) :
  nth_error (JsArray.mapi_from f i l) j =
  option_map (fun u => f u (i + Z.of_nat j)) (nth_error l j).
Proof.
  revert i j. induction l as [|x t IH]; intros i [|j]; simpl; try reflexivity.
  - now rewrite Z.add_0_r.
  - rewrite IH. destruct (nth_error t j); simpl; [|reflexivity].
    do 2 f_equal. lia.
Qed.

Lemma length_mapi_from {A B : Type} (f : A -> Z -> B) (l : list A) (i : Z) :
  List.length (JsArray.mapi_from f i l) = List.length l.
Proof.
  revert i. induction l as [|x t IH]; intros i; simpl; [reflexivity|].
  now rewrite IH.
Qed.

(** Mapping with the index is mapping over the elements paired with their
    indices. *)
Lemma mapi_from_combine {A B : Type} (g : A -> Z -> B) (n s : nat) (l : list A) :
  JsArray.mapi_from g (Z.of_nat s) (firstn n l) =
  map (fun p => g (snd p) (Z.of_nat (fst p))) (combine (seq s n) l).
Proof.
  revert s l. induction n as [|n IH]; intros s [|x t]; try reflexivity.
  cbn [firstn seq combine map JsArray.mapi_from fst snd]. f_equal.
  rewrite <- IH. f_equal. lia.
Qed.

Section AggregateStage.
Variable collator_compare : jsstring -> jsstring -> Z.
Hypothesis collator_consistent : consistent collator_compare.

Local Abbreviation has_completed := (fun u : UserStatistic => completedTasks u >? 0).
Local Abbreviation rank := (metric_then_name collator_compare completedTasks).
Local Abbreviation cmp := (desc_comparator collator_compare completedTasks).

Lemma ordered_rank (l : list UserStatistic) :
  ordered cmp l -> StronglySorted rank l.
Proof.
  unfold ordered. induction 1 as [|a l _ IH Hall]; constructor; [exact IH|].
  eapply Forall_impl; [|exact Hall].
  intros b Hb. now apply desc_comparator_le.
Qed.

Lemma rank_refl (u : UserStatistic) : rank u u.
Proof.
  apply desc_comparator_le.
  rewrite (cmp_refl _ (desc_comparator_consistent _ collator_consistent _)). lia.
Qed.

(** Below a head without completed tasks nobody has any. *)
Lemma none_completed_below (u : UserStatistic) (t : list UserStatistic) :
  StronglySorted rank (u :: t) -> completedTasks u <= 0 ->
  filter has_completed (u :: t) = [].
Proof.
  intros Hs Hu. inversion Hs as [|? ? _ Hall]; subst.
  assert (Forall (fun v => completedTasks v <= 0) (u :: t)) as Hz.
  { constructor; [assumption|]. eapply Forall_impl; [|exact Hall].
    intros v [Hv | [Hv _]]; simpl in *; lia. }
  clear - Hz. induction Hz as [|v l Hv _ IH]; [reflexivity|].
  simpl. replace (completedTasks v >? 0) with false; [exact IH|].
  symmetry. rewrite Z.gtb_ltb. apply Z.ltb_ge. lia.
Qed.

(** C4: let the ranking be the records with completed tasks, the one with
    more of them first and, among equals, the one whose name the collation
    puts first.  [top] is the first of the ranking, and [null] when the
    ranking is empty: it is a record of the input with completed tasks that
    no record of the input precedes, and it is [null] exactly when no record
    has completed tasks, as on the empty list or when all counts are zero,
    and then the leaderboard is empty too.  The leaderboard is the first
    five of the ranking, row [j] (from 0) carrying place [j + 1] and the
    identifier, name and completed count of its record: it is the ranking
    paired with the indices 0 to 4 and turned into rows, it has five rows or
    as many as the ranking has records, each of the first five of the
    ranking has its row, and there is no other row. *)
Theorem aggregate_top_and_leaderboard (X : list UserStatistic) :
  let k := selectGlobalKpis collator_compare X in
  exists ranking,
    (Permutation ranking (filter has_completed X) /\
     StronglySorted rank ranking /\
     ranking = JsArray.sort cmp (filter has_completed X)) /\
    (Kpis.top k = hd_error ranking /\
     (forall u, Kpis.top k = Some u ->
        In u X /\ 0 < completedTasks u /\ forall v, In v X -> rank u v) /\
     (Kpis.top k = None <-> forall v, In v X -> completedTasks v <= 0) /\
     (Kpis.top k = None -> Kpis.leaderboard k = [])) /\
    (Kpis.leaderboard k =
       map (fun p => leader_row (snd p) (Z.of_nat (fst p) + 1))
         (combine (seq 0 5) ranking) /\
     List.length (Kpis.leaderboard k) = Nat.min 5 (List.length ranking) /\
     (forall j u, (j < 5)%nat -> nth_error ranking j = Some u ->
        nth_error (Kpis.leaderboard k) j = Some (leader_row u (Z.of_nat j + 1))) /\
     (forall j row, nth_error (Kpis.leaderboard k) j = Some row ->
        exists u, nth_error ranking j = Some u /\ (j < 5)%nat /\
                  row = leader_row u (Z.of_nat j + 1))).
Proof.
  cbv zeta.
  pose proof (desc_comparator_consistent _ collator_consistent completedTasks) as Hcons.
  remember (JsArray.sort cmp X) as byCompleted eqn:Eby.
  assert (Hby : StronglySorted rank byCompleted)
    by (rewrite Eby; apply ordered_rank, sort_ordered, Hcons).
  assert (Hperm : Permutation byCompleted X) by (rewrite Eby; apply sort_perm).
  exists (filter has_completed byCompleted).
  assert (Hrank : filter has_completed byCompleted =
                  JsArray.sort cmp (filter has_completed X))
    by (rewrite Eby; apply filter_sort, Hcons).
  assert (Htop : Kpis.top (selectGlobalKpis collator_compare X) =
                 hd_error (filter has_completed byCompleted)).
  { unfold selectGlobalKpis. destruct (fold_left _ X _) as [[c w] f].
    cbn [Kpis.top].
    change (JsArray.sort (byCompletedDesc collator_compare) X)
      with (JsArray.sort cmp X). rewrite <- Eby. clear Eby.
    destruct byCompleted as [|u t] eqn:E; [reflexivity|].
    destruct (completedTasks u >? 0) eqn:Eu.
    - simpl. now rewrite Eu.
    - rewrite none_completed_below; [reflexivity | assumption |].
      rewrite Z.gtb_ltb in Eu. apply Z.ltb_ge in Eu. lia. }
  assert (Hboard : Kpis.leaderboard (selectGlobalKpis collator_compare X) =
                   JsArray.mapi (fun u i => leader_row u (i + 1))
                     (firstn 5 (filter has_completed byCompleted))).
  { unfold selectGlobalKpis. destruct (fold_left _ X _) as [[c w] f].
    cbn [Kpis.leaderboard].
    change (JsArray.sort (byCompletedDesc collator_compare) X)
      with (JsArray.sort cmp X). rewrite <- Eby. now rewrite slice_first_five. }
  split; [|split].
  - split; [|split].
    + rewrite Hrank. apply sort_perm.
    + apply ordered_rank. rewrite Hrank. apply sort_ordered, Hcons.
    + exact Hrank.
  - split; [exact Htop|]. split; [|split].
    + intros u Hu. rewrite Htop in Hu.
      destruct byCompleted as [|a t] eqn:E; [discriminate|].
      destruct (completedTasks a >? 0) eqn:Ea.
      * simpl in Hu. rewrite Ea in Hu. simpl in Hu. inversion Hu; subst a.
        rewrite Z.gtb_ltb in Ea. apply Z.ltb_lt in Ea.
        split; [|split; [assumption|]].
        -- apply (Permutation_in _ Hperm). now left.
        -- intros v Hv. apply (Permutation_in _ (Permutation_sym Hperm)) in Hv.
           destruct Hv as [<- | Hv]; [apply rank_refl|].
           inversion Hby as [|? ? _ Hall]; subst.
           rewrite Forall_forall in Hall. now apply Hall.
      * rewrite none_completed_below in Hu; [discriminate | assumption |].
        rewrite Z.gtb_ltb in Ea. apply Z.ltb_ge in Ea. lia.
    + rewrite Htop. split.
      * intros Hn v Hv.
        destruct (Z_le_gt_dec (completedTasks v) 0) as [Hle|Hgt]; [assumption|].
        assert (In v (filter has_completed byCompleted)) as Hin.
        { apply filter_In. split.
          - apply (Permutation_in _ (Permutation_sym Hperm)), Hv.
          - rewrite Z.gtb_ltb. apply Z.ltb_lt. lia. }
        destruct (filter has_completed byCompleted); [destruct Hin | discriminate].
      * intros Hall.
        destruct (filter has_completed byCompleted) as [|a t] eqn:E; [reflexivity|].
        assert (In a (filter has_completed byCompleted)) as Hin by (rewrite E; now left).
        apply filter_In in Hin. destruct Hin as [Hin Ha].
        apply (Permutation_in _ Hperm) in Hin. specialize (Hall a Hin).
        rewrite Z.gtb_ltb in Ha. apply Z.ltb_lt in Ha. lia.
    + rewrite Htop, Hboard.
      destruct (filter has_completed byCompleted); [reflexivity | discriminate].
  - split; [|split; [|split]].
    + rewrite Hboard. unfold JsArray.mapi.
      apply (mapi_from_combine (fun u i => leader_row u (i + 1)) 5 0).
    + rewrite Hboard. unfold JsArray.mapi.
      now rewrite length_mapi_from, length_firstn.
    + intros j u Hj Hu. rewrite Hboard. unfold JsArray.mapi.
      rewrite nth_error_mapi_from, nth_error_firstn.
      replace (j <? 5)%nat with true by (symmetry; apply Nat.ltb_lt; lia).
      rewrite Hu. reflexivity.
    + rewrite Hboard. unfold JsArray.mapi. intros j row Hj. rewrite nth_error_mapi_from in Hj.
      destruct (nth_error (firstn 5 (filter has_completed byCompleted)) j)
        as [u|] eqn:Eu; [|discriminate].
      simpl in Hj. inversion Hj; subst row.
      assert (j < 5)%nat as Hlt.
      { assert (j < List.length (firstn 5 (filter has_completed byCompleted)))%nat
          by (apply nth_error_Some; congruence).
        pose proof (firstn_le_length 5 (filter has_completed byCompleted)). lia. }
      exists u. split; [|split; [assumption | reflexivity]].
      rewrite nth_error_firstn in Eu.
      replace (j <? 5)%nat with true in Eu by (symmetry; apply Nat.ltb_lt; lia).
      exact Eu.
Qed.

End AggregateStage.

(** ** The properties on the sample data *)

Lemma paginate_stage_exact_witness :
  1 <= 2 /\ paginates Sample.team 5 2 (makeSelectPaginated Sample.team (Int 5) (Int 2)).
Proof. split; [lia | apply paginate_stage_exact; lia]. Defined.

(** With a negative page size the page is not the records at the indices
    from [(currentPage - 1) * n] to [currentPage * n]: for five records,
    page 1 and page size -2 there is no such index, and [data] has three
    records.  And a requested page that is [NaN] is not brought into the
    range of the pages: it stays [NaN]. *)
Lemma paginate_negative_page_size :
  let r := makeSelectPaginated Sample.roster (Int 1) (Int (-2)) in
  Page.totalPages r = Int 1 /\ Page.currentPage r = Int 1 /\
  Page.data r = [Sample.anya; Sample.boris; Sample.vera] /\
  segment Sample.roster ((1 - 1) * -2) (1 * -2) = [] /\
  Page.currentPage (makeSelectPaginated Sample.roster NaN (Int 2)) = NaN /\
  ~ paginates Sample.roster 1 (-2) r.
Proof.
  cbv zeta. repeat split.
  intros [_ (c & _ & H)]. cbv zeta in H. destruct H as (Hp & _ & Hd & _).
  simpl in Hp. inversion Hp as [Hc]. rewrite <- Hc in Hd.
  vm_compute in Hd. discriminate.
Qed.

(** A page size of zero is not replaced by 1: on three records it gives
    infinitely many pages, where a page size of 1 gives three; on the empty
    list it gives [NaN]. *)
Lemma paginate_zero_page_size :
  Page.totalPages (makeSelectPaginated Sample.team (Int 1) (Int 0)) = PosInf /\
  Page.totalPages (makeSelectPaginated Sample.team (Int 1) (Int 1)) = Int 3 /\
  Page.totalPages (makeSelectPaginated [] (Int 1) (Int 0)) = NaN.
Proof. repeat split. Qed.

Lemma sort_stage_descending_witness :
  consistent Sample.compareUnits /\
  In ("failedDesc"%string, failedTasks) desc_modes /\
  Sample.compareUnits Sample.Anya Sample.Boris < 0 /\
  StronglySorted (metric_then_name Sample.compareUnits failedTasks)
    (makeSelectSorted Sample.compareUnits Sample.roster "failedDesc").
Proof.
  split; [exact compareUnits_consistent|].
  split; [right; left; reflexivity|].
  split; [reflexivity|].
  apply (sort_stage_descending Sample.compareUnits compareUnits_consistent
           Sample.roster "failedDesc" failedTasks).
  - right; left; reflexivity.
  - reflexivity.
Defined.


Lemma aggregate_top_and_leaderboard_witness :
  consistent Sample.compareUnits /\
  Kpis.top (selectGlobalKpis Sample.compareUnits Sample.roster) =
  hd_error (JsArray.sort (desc_comparator Sample.compareUnits completedTasks)
              (filter (fun u => completedTasks u >? 0) Sample.roster)) /\
  Kpis.leaderboard (selectGlobalKpis Sample.compareUnits Sample.roster) =
  map (fun p => leader_row (snd p) (Z.of_nat (fst p) + 1))
    (combine (seq 0 5)
       (JsArray.sort (desc_comparator Sample.compareUnits completedTasks)
          (filter (fun u => completedTasks u >? 0) Sample.roster))).
Proof.
  split; [exact compareUnits_consistent|].
  destruct (aggregate_top_and_leaderboard Sample.compareUnits
              compareUnits_consistent Sample.roster)
    as (ranking & (_ & _ & ->) & (Htop & _) & (Hboard & _)).
  split; assumption.
Defined.

Lemma roster_counts_nonneg : Forall counts_nonneg Sample.roster.
Proof. repeat constructor; simpl; lia. Qed.

Lemma aggregate_totals_and_rates_witness :
  Forall counts_nonneg Sample.roster /\
  sum_of completedTasks Sample.roster + sum_of inWorkTasks Sample.roster
    + sum_of failedTasks Sample.roster < 2 ^ 53 /\
  Z.of_nat (List.length Sample.roster) < 2 ^ 32 /\
  holds_integer (Kpis.completed (selectGlobalKpis Sample.compareUnits Sample.roster))
    (sum_of completedTasks Sample.roster) /\
  rounded_to_integer
    (Kpis.completed (selectGlobalKpis Sample.compareUnits Sample.roster)
     / Kpis.total (selectGlobalKpis Sample.compareUnits Sample.roster) * 100)%float
    (Kpis.doneRate (selectGlobalKpis Sample.compareUnits Sample.roster)).
Proof.
  split; [exact roster_counts_nonneg|]. split; [reflexivity|]. split; [reflexivity|].
  destruct (aggregate_totals_and_rates Sample.compareUnits Sample.roster
              roster_counts_nonneg eq_refl eq_refl) as (_ & (Hc & _) & Hr & _).
  split; [exact Hc | exact Hr].
Defined.

(** Two counts of 2^53 and 1 add up to 2^53 in the selector, one short of
    their sum; 29 completed tasks of 200 give a rate of 14, where the
    integer nearest to 14.5 is 15; 201 completed tasks over 200 users give
    an average of 1, where 1.005 rounds to 1.01. *)
Lemma aggregate_beyond_exact_arithmetic :
  Kpis.completed
    (selectGlobalKpis Sample.compareUnits
       [Sample.user 1 Sample.Anya (2 ^ 53) 0 0; Sample.user 2 Sample.Boris 1 0 0]) =
  9007199254740992%float /\
  Totals.completed
    (selectGlobalTotals
       [Sample.user 1 Sample.Anya (2 ^ 53) 0 0; Sample.user 2 Sample.Boris 1 0 0]) =
  9007199254740992%float /\
  sum_of completedTasks
    [Sample.user 1 Sample.Anya (2 ^ 53) 0 0; Sample.user 2 Sample.Boris 1 0 0] =
  9007199254740993 /\
  Kpis.doneRate
    (selectGlobalKpis Sample.compareUnits [Sample.user 1 Sample.Anya 29 171 0]) =
  14%float /\
  nearest_integer (29 * 100) (29 + 171 + 0) 15 /\
  Kpis.avgCompletedPerUser
    (selectGlobalKpis Sample.compareUnits
       (Sample.user 1 Sample.Anya 201 0 0 :: repeat Sample.idle 199)) =
  1%float /\
  nearest_integer (201 * 100) 200 101.
Proof. repeat split; try reflexivity; unfold nearest_integer; lia. Qed.

Lemma sort_stage_unknown_mode_witness :
  consistent Sample.compareUnits /\
  ~ In "bestFirst"%string known_modes /\
  makeSelectSorted Sample.compareUnits Sample.roster "bestFirst" =
  makeSelectSorted Sample.compareUnits Sample.roster "nameAsc".
Proof.
  split; [exact compareUnits_consistent|].
  assert (~ In "bestFirst"%string known_modes) as Hn.
  { unfold known_modes. simpl. intros [H | [H | [H | [H | []]]]]; discriminate. }
  split; [exact Hn|].
  apply (sort_stage_unknown_mode Sample.compareUnits compareUnits_consistent
           Sample.roster "bestFirst" Hn).
Defined.

Lemma sort_stage_idempotent_witness :
  consistent Sample.compareUnits /\
  makeSelectSorted Sample.compareUnits
    (makeSelectSorted Sample.compareUnits Sample.roster "inWorkDesc") "inWorkDesc" =
  makeSelectSorted Sample.compareUnits Sample.roster "inWorkDesc".
Proof.
  split; [exact compareUnits_consistent|].
  apply (sort_stage_idempotent Sample.compareUnits compareUnits_consistent).
Defined.

Lemma filter_stage_monotone_witness :
  Sample.lower [] = [] /\
  (List.length (makeSelectFiltered Sample.lower Sample.roster Sample.padded_query true) <=
   List.length (makeSelectFiltered Sample.lower Sample.roster Sample.padded_query false))%nat.
Proof.
  split; [reflexivity|].
  apply (filter_stage_monotone Sample.lower eq_refl Sample.roster Sample.padded_query).
Defined.

(** The scenarios of the specification, run on the sample data. *)

Example scenario_tie_broken_by_name :
  map name
    (makeSelectSorted Sample.compareUnits
       [Sample.vera; Sample.boris; Sample.anya] "completedDesc") =
  [Sample.Anya; Sample.Boris; Sample.Vera].
Proof. reflexivity. Qed.

Example scenario_page_corrected :
  let r := makeSelectPaginated Sample.team (Int 5) (Int 2) in
  Page.totalPages r = Int 2 /\ Page.currentPage r = Int 2 /\
  Page.data r = [Sample.vera].
Proof. repeat split. Qed.

Example scenario_nobody_active :
  makeSelectFiltered Sample.lower [Sample.idle; Sample.idle] [] true = [] /\
  Kpis.top (selectGlobalKpis Sample.compareUnits [Sample.idle; Sample.idle]) = None /\
  Kpis.leaderboard (selectGlobalKpis Sample.compareUnits [Sample.idle; Sample.idle]) = [].
Proof. repeat split. Qed.

Example scenario_query_matches_one :
  makeSelectFiltered Sample.lower Sample.team Sample.ver false = [Sample.vera].
Proof. reflexivity. Qed.

(** The rates are those of binary64 arithmetic: 29 of 200 is 14.5 per cent,
    but [29 / 200 * 100] falls just short of it and rounds to 14; one
    completed task over three users is 0.33. *)
Example rates_in_doubles :
  Kpis.doneRate
    (selectGlobalKpis Sample.compareUnits [Sample.user 1 Sample.Anya 29 171 0]) =
  14%float /\
  JsDouble.nearest (100 * 29) 200 = 15 /\
  JsDouble.toFixed2 (1 / 3)%float = JsDouble.Hundredths false 33 /\
  Kpis.avgCompletedPerUser
    (selectGlobalKpis Sample.compareUnits
       [Sample.user 1 Sample.Anya 1 2 0; Sample.idle; Sample.idle]) =
  (33 / 100)%float.
Proof. repeat split. Qed.

(** ** More on the paginate stage *)

Lemma firstn_plus {A : Type} (a b : nat) (l : list A) :
  firstn (a + b) l = firstn a l ++ firstn b (skipn a l).
Proof.
  revert l. induction a as [|a IH]; intros l; [reflexivity|].
  destruct l as [|x t]; simpl.
  - now rewrite firstn_nil.
  - now rewrite IH.
Qed.

(** Cutting a list into consecutive pieces of [n] elements and gluing the
    first [m] of them gives its first [m * n] elements. *)
Lemma chunks_concat {A : Type} (n m : nat) (l : list A) :
  List.concat (map (fun k => firstn n (skipn (k * n) l)) (seq 0 m)) = firstn (m * n) l.
Proof.
  induction m as [|m IH]; [reflexivity|].
  rewrite seq_S, map_app, concat_app, IH. simpl.
  rewrite app_nil_r, (Nat.add_comm n (m * n)). symmetry. apply firstn_plus.
Qed.

Lemma pages_bounds (total n : Z) :
  0 <= total -> 1 <= n ->
  let pages := Z.max 1 (- (- total / n)) in
  1 <= pages /\ total <= pages * n /\ (0 < total -> (pages - 1) * n < total) /\
  (total = 0 -> pages = 1).
Proof.
  intros Ht Hn. cbv zeta.
  pose proof (ceiling_of_quotient total n Hn) as Hc. unfold is_ceiling in Hc.
  replace (0 <? n) with true in Hc by (symmetry; apply Z.ltb_lt; lia).
  nia.
Qed.

(** The pagination at an integer page and a page size from 1 on, written
    out. *)
Lemma paginate_int (X : list UserStatistic) (p n : Z) :
  1 <= n ->
  let total := Z.of_nat (List.length X) in
  let pages := Z.max 1 (- (- total / n)) in
  let current := clamp p 1 pages in
  makeSelectPaginated X (Int p) (Int n) =
  {| Page.data := firstn (Z.to_nat n) (skipn (Z.to_nat ((current - 1) * n)) X);
     Page.total := total;
     Page.totalPages := Int pages;
     Page.currentPage := Int current |}.
Proof.
  intros Hn. cbv zeta. unfold makeSelectPaginated.
  rewrite ceil_div_positive by assumption. cbn [Math_max Math_min sub mul].
  set (pages := Z.max 1 (- (- Z.of_nat (List.length X) / n))).
  replace (Z.min (Z.max 1 p) pages) with (clamp p 1 pages) by (unfold clamp; lia).
  assert (1 <= clamp p 1 pages) by (unfold clamp; lia).
  f_equal. rewrite slice_segment by nia. rewrite segment_firstn_skipn.
  do 2 f_equal. nia.
Qed.

(** X1: for a page size from 1 on, the pages 1 to [totalPages], one after
    the other, are the list that was paginated: every record is on exactly
    one page, and the order is kept. *)
Theorem pages_cover_the_list (X : list UserStatistic) (n : Z) :
  1 <= n ->
  exists pages,
    Page.totalPages (makeSelectPaginated X (Int 1) (Int n)) = Int pages /\
    1 <= pages /\
    List.concat
      (map (fun i => Page.data (makeSelectPaginated X (Int (Z.of_nat i)) (Int n)))
           (seq 1 (Z.to_nat pages))) = X.
Proof.
  intros Hn.
  pose proof (pages_bounds (Z.of_nat (List.length X)) n ltac:(lia) Hn) as Hb.
  cbv zeta in Hb. set (pages := Z.max 1 (- (- Z.of_nat (List.length X) / n))) in *.
  destruct Hb as (Hp & Hcover & _ & _).
  exists pages. split; [|split; [exact Hp|]].
  - rewrite (paginate_int X 1 n Hn). reflexivity.
  - rewrite <- seq_shift, map_map.
    rewrite (map_ext_in _
               (fun k => firstn (Z.to_nat n) (skipn (k * Z.to_nat n) X))).
    + rewrite chunks_concat. apply firstn_all2. nia.
    + intros k Hk. apply in_seq in Hk.
      rewrite (paginate_int X (Z.of_nat (S k)) n Hn). cbn [Page.data].
      fold pages. do 2 f_equal. unfold clamp. nia.
Qed.

(** X2: for a page size [n] from 1 on, whatever page is asked for, the page
    shown lies between 1 and [totalPages] and holds at most [n] records:
    exactly [n] on every page before the last, and at least one whenever the
    list is not empty. *)
Theorem page_lengths (X : list UserStatistic) (p n : Z) :
  1 <= n ->
  let r := makeSelectPaginated X (Int p) (Int n) in
  exists current pages,
    Page.currentPage r = Int current /\ Page.totalPages r = Int pages /\
    1 <= current <= pages /\
    Z.of_nat (List.length (Page.data r)) =
      Z.min n (Z.of_nat (List.length X) - (current - 1) * n) /\
    Z.of_nat (List.length (Page.data r)) <= n /\
    (X <> [] -> 1 <= Z.of_nat (List.length (Page.data r))) /\
    (current < pages -> Z.of_nat (List.length (Page.data r)) = n).
Proof.
  intros Hn. cbv zeta. rewrite (paginate_int X p n Hn).
  cbn [Page.data Page.currentPage Page.totalPages].
  pose proof (pages_bounds (Z.of_nat (List.length X)) n ltac:(lia) Hn) as Hb.
  cbv zeta in Hb. set (pages := Z.max 1 (- (- Z.of_nat (List.length X) / n))) in *.
  destruct Hb as (Hp & Hcover & Hlast & Hone).
  set (current := clamp p 1 pages).
  assert (1 <= current <= pages) as Hc by (subst current; unfold clamp; lia).
  exists current, pages. split; [reflexivity|]. split; [reflexivity|].
  split; [exact Hc|].
  rewrite length_firstn, length_skipn.
  assert (X <> [] -> 0 < Z.of_nat (List.length X)) as Hne
    by (destruct X; [congruence | simpl; lia]).
  assert (0 < Z.of_nat (List.length X) -> (current - 1) * n < Z.of_nat (List.length X))
    as Hin by (intros H0; specialize (Hlast H0); nia).
  assert (Z.of_nat (List.length X) = 0 -> current = 1) as Hz
    by (intros H0; specialize (Hone H0); subst current; unfold clamp; lia).
  repeat split.
  - destruct (Z.eq_dec (Z.of_nat (List.length X)) 0) as [E|E]; [rewrite (Hz E)|]; nia.
  - lia.
  - intros HX. specialize (Hin (Hne HX)). nia.
  - intros Hlt. assert (current * n < Z.of_nat (List.length X)) by nia. nia.
Qed.

Lemma clamp_twice (page c : number) :
  let pages := Math_max (Int 1) c in
  let current := Math_min (Math_max (Int 1) page) pages in
  Math_min (Math_max (Int 1) current) pages = current.
Proof.
  destruct page as [p| | |], c as [z| | |]; simpl; try reflexivity;
    f_equal; lia.
Qed.

Lemma syncPage_shown (page currentPage : number) :
  Dashboard.syncPage page currentPage = currentPage.
Proof.
  unfold Dashboard.syncPage.
  destruct page as [p| | |], currentPage as [c| | |]; simpl; try reflexivity.
  destruct (Z.eqb_spec p c); simpl; congruence.
Qed.

(** X3: asking for the page that was shown shows it again, with the same
    records, for every page and page size, the unusual ones included.  So
    the effect that sets the page state to the page shown settles after one
    step: unless the page shown is [NaN], the next pagination finds the page
    state equal to the page it shows. *)
Theorem page_correction_settles
    (X : list UserStatistic) (page pageSize : number) :
  let r := makeSelectPaginated X page pageSize in
  let page' := Dashboard.syncPage page (Page.currentPage r) in
  makeSelectPaginated X page' pageSize = r /\
  (Page.currentPage r <> NaN ->
   Dashboard.strictNotEquals page'
     (Page.currentPage (makeSelectPaginated X page' pageSize)) = false).
Proof.
  cbv zeta. rewrite syncPage_shown.
  assert (makeSelectPaginated X
            (Page.currentPage (makeSelectPaginated X page pageSize)) pageSize =
          makeSelectPaginated X page pageSize) as E.
  { unfold makeSelectPaginated. cbn [Page.currentPage].
    now rewrite clamp_twice. }
  split; [exact E|]. rewrite E. intros Hnan.
  destruct (Page.currentPage (makeSelectPaginated X page pageSize)) as [c| | |];
    simpl; try reflexivity; [|congruence].
  now rewrite Z.eqb_refl.
Qed.

(** X4: for a page size from 1 on, the rank the page writes on the card at
    index [i], and the one the table writes in row [i] from the offset the
    page hands it, is the position, counted from 1, that the record has in
    the list that was paginated. *)
Theorem rank_is_position
    (X : list UserStatistic) (p n : Z) (i : nat) (u : UserStatistic) :
  1 <= n ->
  let r := makeSelectPaginated X (Int p) (Int n) in
  nth_error (Page.data r) i = Some u ->
  exists rank,
    Dashboard.cardRank (Page.currentPage r) (Int n) (Z.of_nat i) = Int rank /\
    Dashboard.tableRank
      (Dashboard.pageRankOffset (Page.currentPage r) (Int n)) (Z.of_nat i) = Int rank /\
    1 <= rank <= Z.of_nat (List.length X) /\
    nth_error X (Z.to_nat (rank - 1)) = Some u.
Proof.
  intros Hn. cbv zeta. rewrite (paginate_int X p n Hn).
  cbn [Page.data Page.currentPage].
  set (pages := Z.max 1 (- (- Z.of_nat (List.length X) / n))).
  set (current := clamp p 1 pages).
  assert (1 <= current) as Hc by (subst current; unfold clamp; lia).
  intros Hu. exists ((current - 1) * n + Z.of_nat i + 1).
  split; [reflexivity|]. split; [reflexivity|].
  rewrite nth_error_firstn in Hu.
  destruct (i <? Z.to_nat n)%nat; [|discriminate].
  rewrite nth_error_skipn in Hu.
  replace (Z.to_nat ((current - 1) * n + Z.of_nat i + 1 - 1))
    with (Z.to_nat ((current - 1) * n) + i)%nat by nia.
  split; [|exact Hu].
  assert (Z.to_nat ((current - 1) * n) + i < List.length X)%nat
    by (apply nth_error_Some; congruence).
  nia.
Qed.

(** ** The stages together *)
Section Pipeline.
Variable toLowerCase : jsstring -> jsstring.
Variable collator_compare : jsstring -> jsstring -> Z.

Local Abbreviation filtered := (makeSelectFiltered toLowerCase).
Local Abbreviation sorted_by := (makeSelectSorted collator_compare).

(** The test a record passes to stay in the filtered list. *)
Lemma filtered_as_filter
    (X : list UserStatistic) (query : jsstring) (onlyActive : bool) :
  filtered X query onlyActive =
  filter (fun u => includes (toLowerCase (name u)) (toLowerCase (trim query))
                   && (negb onlyActive || isActive u)) X.
Proof.
  destruct onlyActive.
  - rewrite filtered_active, filtered_by_name, filter_twice. reflexivity.
  - rewrite filtered_by_name. apply filter_ext. intros u.
    simpl. now rewrite andb_true_r.
Qed.

(** X6: the number of records found, which the page shows above the list,
    is the number of records that pass the filter: it does not depend on the
    sort mode, the page or the page size. *)
Theorem found_count_is_filtered_count
    (global : list UserStatistic) (query : jsstring) (onlyActive : bool)
    (sortMode : string) (page pageSize : number) :
  Page.total
    (selectPaginated toLowerCase collator_compare global query sortMode
       onlyActive page pageSize) =
  Z.of_nat (List.length (filtered global query onlyActive)).
Proof.
  unfold selectPaginated, selectSorted, makeSelectPaginated. cbn [Page.total].
  destruct (sorted_by_cases collator_compare (filtered global query onlyActive)
              sortMode) as (cmp & -> & _ & _).
  f_equal. apply Permutation_length, sort_perm.
Qed.

Hypothesis collator_consistent : consistent collator_compare.

Lemma sort_after_filter_is_filter_after_sort_aux
    (global : list UserStatistic) (query : jsstring) (onlyActive : bool)
    (sortMode : string) :
  sorted_by (filtered global query onlyActive) sortMode =
  filtered (sorted_by global sortMode) query onlyActive.
Proof.
  rewrite !filtered_as_filter.
  destruct (sorted_by_cases collator_compare global sortMode)
    as (cmp & Hg & Hcmp & Hall).
  rewrite Hg, Hall. symmetry. apply filter_sort.
  now apply (stage_comparator_consistent collator_compare).
Qed.

(** X5: filtering and sorting commute: sorting what passed the filter, as
    the page does, gives the same list as filtering the sorted store; so
    what the page lists and exports is kept in the order of the sorted
    store. *)
Theorem sort_after_filter_is_filter_after_sort
    (global : list UserStatistic) (query : jsstring) (onlyActive : bool)
    (sortMode : string) :
  selectSorted toLowerCase collator_compare global query sortMode onlyActive =
  filtered (sorted_by global sortMode) query onlyActive.
Proof. apply sort_after_filter_is_filter_after_sort_aux. Qed.



End Pipeline.

(** ** The aggregate stage and the order of the records *)

Lemma sum_of_permutation (f : UserStatistic -> Z) (l l' : list UserStatistic) :
  Permutation l l' -> sum_of f l = sum_of f l'.
Proof.
  induction 1 as [|x l l' _ IH|x y l|l l' l'' _ IH1 _ IH2]; simpl; lia.
Qed.

(** X8: while the counts are not negative and sum, all three kinds
    together, to less than 2^53, the numbers of the aggregate stage do not
    depend on the order of the records: the user count, the three sums,
    their total, the two rates and the totals of the donut are the same for
    any rearrangement of the store, the sorted one included. *)
Theorem aggregates_ignore_order
    (collator_compare : jsstring -> jsstring -> Z) (X Y : list UserStatistic) :
  Permutation X Y ->
  Forall counts_nonneg X ->
  sum_of completedTasks X + sum_of inWorkTasks X + sum_of failedTasks X < 2 ^ 53 ->
  let k := selectGlobalKpis collator_compare X in
  let k' := selectGlobalKpis collator_compare Y in
  Kpis.users k = Kpis.users k' /\ Kpis.total k = Kpis.total k' /\
  Kpis.completed k = Kpis.completed k' /\ Kpis.inWork k = Kpis.inWork k' /\
  Kpis.failed k = Kpis.failed k' /\ Kpis.doneRate k = Kpis.doneRate k' /\
  Kpis.avgCompletedPerUser k = Kpis.avgCompletedPerUser k' /\
  selectGlobalTotals X = selectGlobalTotals Y.
Proof.
  intros HP Hnn Hb. cbv zeta.
  assert (Hnn' : Forall counts_nonneg Y) by (eapply Permutation_Forall; eassumption).
  assert (Hb' : sum_of completedTasks Y + sum_of inWorkTasks Y
                + sum_of failedTasks Y < 2 ^ 53).
  { rewrite <- (sum_of_permutation completedTasks _ _ HP),
      <- (sum_of_permutation inWorkTasks _ _ HP),
      <- (sum_of_permutation failedTasks _ _ HP). exact Hb. }
  pose proof (kpis_numbers collator_compare X Hnn Hb) as HX.
  pose proof (kpis_numbers collator_compare Y Hnn' Hb') as HY.
  cbv zeta in HX, HY.
  destruct HX as (-> & -> & -> & -> & -> & -> & ->).
  destruct HY as (-> & -> & -> & -> & -> & -> & ->).
  rewrite (totals_numbers X Hnn Hb), (totals_numbers Y Hnn' Hb').
  rewrite (sum_of_permutation completedTasks _ _ HP),
    (sum_of_permutation inWorkTasks _ _ HP),
    (sum_of_permutation failedTasks _ _ HP),
    (Permutation_length HP).
  repeat split.
Qed.

(** Beyond 2^53 the order of the records shows: the counts 2^53, 1 and 1
    add up to 2^53 in this order and to 2^53 + 2 with the large one last. *)
Example sums_depend_on_order_beyond_2_53 :
  Kpis.completed
    (selectGlobalKpis Sample.compareUnits
       [Sample.user 1 Sample.Anya (2 ^ 53) 0 0; Sample.user 2 Sample.Boris 1 0 0;
        Sample.user 3 Sample.Vera 1 0 0]) =
  9007199254740992%float /\
  Kpis.completed
    (selectGlobalKpis Sample.compareUnits
       [Sample.user 2 Sample.Boris 1 0 0; Sample.user 3 Sample.Vera 1 0 0;
        Sample.user 1 Sample.Anya (2 ^ 53) 0 0]) =
  9007199254740994%float.
Proof. split; reflexivity. Qed.

(** ** The statistics slice *)
Section SliceFacts.
Variable MyStatistic : Type.
Variable persistedSort : option string.

Local Abbreviation state := (Statistics.StatisticsState MyStatistic).
Local Abbreviation reducer := (Statistics.reducer MyStatistic persistedSort).
Local Abbreviation run := (Statistics.run MyStatistic persistedSort).

Lemma run_cons (s : state) (a : Statistics.action MyStatistic)
    (actions : list (Statistics.action MyStatistic)) :
  run s (a :: actions) = run (reducer s a) actions.
Proof. reflexivity. Qed.

Lemma run_app (s : state) (actions actions' : list (Statistics.action MyStatistic)) :
  run s (actions ++ actions') = run (run s actions) actions'.
Proof. apply fold_left_app. Qed.

Lemma run_one (s : state) (a : Statistics.action MyStatistic) :
  run s [a] = reducer s a.
Proof. reflexivity. Qed.

Lemma snapshot_kept (s : state) (actions : list (Statistics.action MyStatistic)) :
  forallb (fun a => negb (Statistics.replacesSnapshot MyStatistic a)) actions = true ->
  Statistics.global MyStatistic (run s actions) = Statistics.global MyStatistic s.
Proof.
  revert s. induction actions as [|a actions IH]; intros s H; [reflexivity|].
  simpl in H. apply andb_true_iff in H. destruct H as [Ha H].
  rewrite run_cons, (IH _ H). destruct a; simpl in Ha; try discriminate; reflexivity.
Qed.

(** X9: the store keeps the last array that was fetched.  After a
    successful fetch of the global statistics, whatever actions follow
    short of another successful fetch or a reset (failed fetches, changes of
    the sort mode, the user's own statistics), [selectGlobal] still returns
    the fetched array, and a fetch that fails leaves a message and the
    loading flag off. *)
Theorem last_snapshot_is_kept
    (s : state) (payload : list UserStatistic)
    (actions : list (Statistics.action MyStatistic)) :
  forallb (fun a => negb (Statistics.replacesSnapshot MyStatistic a)) actions = true ->
  Statistics.selectGlobal MyStatistic
    (run s (Statistics.fetchGlobal_fulfilled MyStatistic payload :: actions)) = payload /\
  (forall message,
     let s' := run s (Statistics.fetchGlobal_fulfilled MyStatistic payload
                        :: actions ++ [Statistics.fetchGlobal_rejected MyStatistic message]) in
     Statistics.selectGlobal MyStatistic s' = payload /\
     Statistics.loading MyStatistic s' = false /\
     Statistics.error MyStatistic s' =
       Some (Statistics.orDefault message Statistics.unknownError)).
Proof.
  intros H. unfold Statistics.selectGlobal. split.
  - rewrite run_cons, (snapshot_kept _ _ H). reflexivity.
  - intros message. cbv zeta. rewrite run_cons, run_app, run_one.
    cbn [Statistics.reducer Statistics.global Statistics.loading Statistics.error].
    rewrite (snapshot_kept _ _ H). repeat split.
Qed.

(** X10: an error message stays until it is dealt with.  Once the state
    holds a message, no sequence of actions without [clearError], a reset,
    the start of a global fetch or a failed global fetch changes it: neither
    a successful global fetch nor any outcome of the fetch of the user's own
    statistics does, a failure of that fetch with a message of its own
    included. *)
Theorem error_is_kept
    (s : state) (e : jsstring) (actions : list (Statistics.action MyStatistic)) :
  Statistics.error MyStatistic s = Some e ->
  forallb (fun a => negb (Statistics.touchesError MyStatistic a)) actions = true ->
  Statistics.error MyStatistic (run s actions) = Some e.
Proof.
  revert s. induction actions as [|a actions IH]; intros s He H; [exact He|].
  simpl in H. apply andb_true_iff in H. destruct H as [Ha H].
  rewrite run_cons. apply IH; [|exact H].
  destruct a; simpl in Ha; try discriminate; simpl; try exact He.
  now rewrite He.
Qed.

End SliceFacts.

(** ** The avatar utilities *)

Lemma sameString_eq (a b : jsstring) : Avatar.sameString a b = true <-> a = b.
Proof.
  revert b. induction a as [|x a IH]; intros [|y b]; simpl;
    try (split; [reflexivity || discriminate | reflexivity || discriminate]).
  rewrite andb_true_iff, N.eqb_eq, IH. split.
  - intros [-> ->]. reflexivity.
  - intros H. inversion H. split; reflexivity.
Qed.

Lemma textFrom_start (bytes : list Byte.byte) (len : Z) :
  0 <= len ->
  Avatar.textFrom bytes 0 len = firstn (Z.to_nat len) (map Byte.to_N bytes).
Proof.
  intros Hl. unfold Avatar.textFrom.
  rewrite slice_segment by lia. rewrite segment_firstn_skipn.
  simpl skipn. rewrite firstn_map. do 2 f_equal. lia.
Qed.

Lemma textFrom_at (bytes : list Byte.byte) (start len : Z) :
  0 <= start -> 0 <= len ->
  Avatar.textFrom bytes start len =
  firstn (Z.to_nat len) (skipn (Z.to_nat start) (map Byte.to_N bytes)).
Proof.
  intros Hs Hl. unfold Avatar.textFrom.
  rewrite slice_segment by lia. rewrite segment_firstn_skipn.
  rewrite skipn_map, firstn_map. f_equal.
  replace (Z.max start 0) with start by lia.
  replace (Z.to_nat (start + len - start)) with (Z.to_nat len) by lia.
  reflexivity.
Qed.

Lemma countFrames_spec (frames : Z) (rest : list Byte.byte) :
  frames <= 1 ->
  Avatar.countFrames frames rest = true <->
  2 <= frames + Z.of_nat (count_occ N.eq_dec (map Byte.to_N rest) 44%N).
Proof.
  revert frames. induction rest as [|b rest IH]; intros frames Hf.
  - simpl. split; [discriminate | lia].
  - cbn [Avatar.countFrames map count_occ].
    destruct (N.eqb_spec (Byte.to_N b) 44) as [E|E].
    + destruct (N.eq_dec (Byte.to_N b) 44) as [_|N]; [|contradiction].
      destruct (frames + 1 >? 1) eqn:G; rewrite Z.gtb_ltb in G.
      * apply Z.ltb_lt in G. split; [lia | reflexivity].
      * apply Z.ltb_ge in G. rewrite IH by lia. lia.
    + destruct (N.eq_dec (Byte.to_N b) 44) as [Y|_]; [contradiction|].
      now apply IH.
Qed.

(** X11: [isAnimatedGIF] answers yes exactly when the head starts with
    "GIF87a" or "GIF89a" and has the byte 0x2C at least twice, wherever it
    stands. *)
Theorem gif_animated_iff (head : list Byte.byte) :
  Avatar.isAnimatedGIF head = true <->
  (firstn 6 (map Byte.to_N head) = Avatar.GIF87a \/
   firstn 6 (map Byte.to_N head) = Avatar.GIF89a) /\
  (2 <= count_occ N.eq_dec (map Byte.to_N head) 44%N)%nat.
Proof.
  unfold Avatar.isAnimatedGIF. cbv zeta.
  rewrite (textFrom_start head 6) by lia. change (Z.to_nat 6) with 6%nat.
  rewrite <- !sameString_eq.
  destruct (Avatar.sameString (firstn 6 (map Byte.to_N head)) Avatar.GIF87a);
    destruct (Avatar.sameString (firstn 6 (map Byte.to_N head)) Avatar.GIF89a);
    cbn [orb negb]; try rewrite countFrames_spec by lia;
    try (split; [intros H; split; [auto | lia] | intros [_ H]; lia]).
  split; [discriminate | intros [[H | H] _]; discriminate].
Qed.

Lemma signatureFrom_spec (head : list Byte.byte) (i : nat) (expected : list N) :
  Avatar.signatureFrom head (Z.of_nat i) expected = true <->
  firstn (List.length expected) (skipn i (map Byte.to_N head)) = expected.
Proof.
  revert i. induction expected as [|s expected IH]; intros i.
  - simpl. split; reflexivity.
  - cbn [Avatar.signatureFrom List.length]. unfold Avatar.at_index.
    replace (Z.of_nat i <? 0) with false by (symmetry; apply Z.ltb_ge; lia).
    rewrite Nat2Z.id.
    replace (Z.of_nat i + 1) with (Z.of_nat (S i)) by lia.
    destruct (nth_error head i) as [b|] eqn:E.
    + assert (skipn i (map Byte.to_N head) =
              Byte.to_N b :: skipn (S i) (map Byte.to_N head)) as ->.
      { clear - E. revert i E. induction head as [|h head IHh]; intros [|i] E;
          simpl in *; try discriminate.
        - now inversion E.
        - now apply IHh. }
      cbn [firstn]. destruct (N.eqb_spec (Byte.to_N b) s) as [->|N].
      * rewrite IH. split; [intros H; f_equal; exact H | intros H; now injection H].
      * split; [discriminate | intros H; inversion H; contradiction].
    + assert (skipn i (map Byte.to_N head) = []) as ->.
      { apply skipn_all2. rewrite length_map. now apply nth_error_None. }
      simpl. split; discriminate.
Qed.

Lemma operand_range (b : option Byte.byte) : 0 <= Avatar.operand b <= 255.
Proof.
  destruct b as [x|]; simpl; [|lia].
  pose proof (Byte.to_N_bounded x). lia.
Qed.

Lemma ToInt32_unique (z r k : Z) :
  - 2 ^ 31 <= r < 2 ^ 31 -> z = r + k * 2 ^ 32 -> Avatar.ToInt32 z = r.
Proof.
  intros Hr ->. unfold Avatar.ToInt32.
  replace (r + k * 2 ^ 32 + 2 ^ 31) with (r + 2 ^ 31 + k * 2 ^ 32) by lia.
  rewrite Z.mod_add by lia. rewrite Z.mod_small by lia. lia.
Qed.

Lemma ToInt32_small (z : Z) : - 2 ^ 31 <= z < 2 ^ 31 -> Avatar.ToInt32 z = z.
Proof. intros H. apply (ToInt32_unique z z 0); lia. Qed.

Lemma ToInt32_range (z : Z) : - 2 ^ 31 <= Avatar.ToInt32 z < 2 ^ 31.
Proof.
  unfold Avatar.ToInt32. pose proof (Z.mod_pos_bound (z + 2 ^ 31) (2 ^ 32)). lia.
Qed.

(** Bits that do not overlap add up. *)
Lemma lor_disjoint (x k n : Z) :
  0 <= n -> 0 <= x < 2 ^ n -> Z.lor x (k * 2 ^ n) = x + k * 2 ^ n.
Proof.
  intros Hn Hx. rewrite <- (Z.add_lor_land x (k * 2 ^ n)).
  replace (Z.land x (k * 2 ^ n)) with 0; [lia|].
  symmetry. apply Z.bits_inj'. intros m Hm.
  rewrite Z.land_spec, Z.bits_0.
  destruct (Z.lt_ge_cases m n) as [Hlt|Hge].
  - rewrite Z.mul_pow2_bits_low by assumption. apply andb_false_r.
  - destruct (Z.eq_dec x 0) as [->|Hx0]; [now rewrite Z.bits_0|].
    rewrite (Z.bits_above_log2 x m); [reflexivity | lia |].
    assert (Z.log2 x < n) by (apply Z.log2_lt_pow2; lia). lia.
Qed.

(** X12: [readU32LE] puts the four bytes from [off] on together with the
    first as the lowest, a byte outside the array counting as 0, and reads
    the 32 bits as a signed number: the result lies between -2^31 and
    2^31 - 1 and is negative exactly when the fourth byte is 128 or more. *)
Theorem readU32LE_is_signed (bytes : list Byte.byte) (off : Z) :
  let b i := Avatar.operand (Avatar.at_index bytes (off + i)) in
  let unsigned := b 0 + 2 ^ 8 * b 1 + 2 ^ 16 * b 2 + 2 ^ 24 * b 3 in
  Avatar.readU32LE bytes off =
    (if b 3 <? 128 then unsigned else unsigned - 2 ^ 32) /\
  - 2 ^ 31 <= Avatar.readU32LE bytes off < 2 ^ 31 /\
  (Avatar.readU32LE bytes off < 0 <-> 128 <= b 3).
Proof.
  cbv zeta. unfold Avatar.readU32LE. rewrite Z.add_0_r.
  pose proof (operand_range (Avatar.at_index bytes off)) as H0.
  pose proof (operand_range (Avatar.at_index bytes (off + 1))) as H1.
  pose proof (operand_range (Avatar.at_index bytes (off + 2))) as H2.
  pose proof (operand_range (Avatar.at_index bytes (off + 3))) as H3.
  set (b0 := Avatar.operand (Avatar.at_index bytes off)) in *.
  set (b1 := Avatar.operand (Avatar.at_index bytes (off + 1))) in *.
  set (b2 := Avatar.operand (Avatar.at_index bytes (off + 2))) in *.
  set (b3 := Avatar.operand (Avatar.at_index bytes (off + 3))) in *.
  assert (Avatar.shiftLeft b1 8 = b1 * 2 ^ 8) as E1.
  { unfold Avatar.shiftLeft. rewrite (ToInt32_small b1) by lia.
    rewrite Z.shiftl_mul_pow2 by lia. apply ToInt32_small. lia. }
  assert (Avatar.shiftLeft b2 16 = b2 * 2 ^ 16) as E2.
  { unfold Avatar.shiftLeft. rewrite (ToInt32_small b2) by lia.
    rewrite Z.shiftl_mul_pow2 by lia. apply ToInt32_small. lia. }
  assert (Avatar.shiftLeft b3 24 =
          (if b3 <? 128 then b3 else b3 - 256) * 2 ^ 24) as E3.
  { unfold Avatar.shiftLeft. rewrite (ToInt32_small b3) by lia.
    rewrite Z.shiftl_mul_pow2 by lia.
    destruct (Z.ltb_spec b3 128).
    - apply ToInt32_small. lia.
    - apply (ToInt32_unique _ _ 1); lia. }
  rewrite E1, E2, E3. unfold Avatar.bitOr.
  rewrite (ToInt32_small b0), (ToInt32_small (b1 * 2 ^ 8)) by lia.
  rewrite (lor_disjoint b0 b1 8) by lia.
  rewrite (ToInt32_small (b0 + b1 * 2 ^ 8)), (ToInt32_small (b2 * 2 ^ 16)) by lia.
  rewrite (lor_disjoint (b0 + b1 * 2 ^ 8) b2 16) by lia.
  rewrite (ToInt32_small (b0 + b1 * 2 ^ 8 + b2 * 2 ^ 16)) by lia.
  rewrite (ToInt32_small ((if b3 <? 128 then b3 else b3 - 256) * 2 ^ 24))
    by (destruct (Z.ltb_spec b3 128); lia).
  rewrite (lor_disjoint (b0 + b1 * 2 ^ 8 + b2 * 2 ^ 16)) by lia.
  destruct (Z.ltb_spec b3 128); repeat split; lia.
Qed.

Lemma scan_more_fuel (head : list Byte.byte) (fuel fuel' : nat) (p : Z) (b : bool) :
  Avatar.scanChunks fuel head p = Some b -> (fuel <= fuel')%nat ->
  Avatar.scanChunks fuel' head p = Some b.
Proof.
  revert fuel' p. induction fuel as [|fuel IH]; intros fuel' p H Hle;
    [discriminate|].
  destruct fuel' as [|fuel']; [lia|]. simpl in *.
  destruct (p + 8 <=? Z.of_nat (List.length head)); [|exact H].
  destruct (Avatar.marksAnimation head p); [exact H|].
  apply IH; [exact H | lia].
Qed.

Lemma chunkLen_advances (head : list Byte.byte) (p : Z) :
  0 <= Avatar.readU32LE head (p + 4) <= 2 ^ 31 - 2 -> 8 <= Avatar.chunkLen head p.
Proof.
  intros H. unfold Avatar.chunkLen, Avatar.bitAnd. cbv zeta.
  rewrite (ToInt32_small (Avatar.readU32LE head (p + 4) + 1)) by lia.
  rewrite (ToInt32_small (-2)) by lia.
  assert (0 <= Z.land (Avatar.readU32LE head (p + 4) + 1) (-2))
    by (apply Z.land_nonneg; left; lia).
  lia.
Qed.

Section ScanEnds.
Variable head : list Byte.byte.

(** Every size field the loop reads is a size: not negative, and not the
    largest 32-bit number. *)
Hypothesis sizes_sane :
  forall p,
    Avatar.visits head p -> p + 8 <= Z.of_nat (List.length head) ->
    Avatar.marksAnimation head p = false ->
    0 <= Avatar.readU32LE head (p + 4) <= 2 ^ 31 - 2.

Lemma scan_ends (fuel : nat) (p : Z) :
  Avatar.visits head p -> (1 <= fuel)%nat ->
  Z.of_nat (List.length head) - p < 8 * Z.of_nat fuel ->
  exists b, Avatar.scanChunks fuel head p = Some b.
Proof.
  revert p. induction fuel as [|fuel IH]; intros p Hv Hf Hm; [lia|].
  simpl. destruct (Z.leb_spec (p + 8) (Z.of_nat (List.length head))) as [Hin|Hout];
    [|now exists false].
  destruct (Avatar.marksAnimation head p) eqn:Ea; [now exists true|].
  pose proof (chunkLen_advances head p (sizes_sane p Hv Hin Ea)) as Hadv.
  apply IH; [now apply Avatar.visits_next | lia | lia].
Qed.

(** X13: when every size field the loop of [isAnimatedWebP] reads is
    between 0 and 2^31 - 2, the loop moves on by at least 8 bytes each time
    and ends: within one test of its condition per byte of the head it has
    an answer, and more tests do not change the answer. *)
Theorem webp_scan_ends :
  exists answer,
    forall fuel, (List.length head < fuel)%nat ->
                 Avatar.isAnimatedWebP fuel head = Some answer.
Proof.
  unfold Avatar.isAnimatedWebP.
  destruct (negb (Avatar.sameString (Avatar.textFrom head 0 4) Avatar.RIFF));
    [now exists false|].
  destruct (negb (Avatar.sameString (Avatar.textFrom head 8 4) Avatar.WEBP));
    [now exists false|].
  destruct (scan_ends (S (List.length head)) 12 (Avatar.visits_first head))
    as [b Hb]; [lia | lia |].
  exists b. intros fuel Hf. apply (scan_more_fuel _ _ _ _ _ Hb). lia.
Qed.

End ScanEnds.

Lemma chunkLen_zero (head : list Byte.byte) (p : Z) :
  Avatar.readU32LE head (p + 4) = -8 \/ Avatar.readU32LE head (p + 4) = -9 ->
  Avatar.chunkLen head p = 0.
Proof.
  unfold Avatar.chunkLen. cbv zeta. intros [-> | ->]; reflexivity.
Qed.

Lemma scan_stuck (head : list Byte.byte) (p : Z) :
  p + 8 <= Z.of_nat (List.length head) ->
  Avatar.marksAnimation head p = false ->
  Avatar.chunkLen head p = 0 ->
  forall fuel, Avatar.scanChunks fuel head p = None.
Proof.
  intros Hin Ha Hz fuel. induction fuel as [|fuel IH]; [reflexivity|].
  simpl. replace (p + 8 <=? Z.of_nat (List.length head)) with true
    by (symmetry; apply Z.leb_le; lia).
  now rewrite Ha, Hz, Z.add_0_r.
Qed.

Lemma scan_through (head : list Byte.byte) (p : Z) :
  Avatar.visits head p ->
  (forall fuel, Avatar.scanChunks fuel head p = None) ->
  forall fuel, Avatar.scanChunks fuel head 12 = None.
Proof.
  induction 1 as [|p0 Hv IH Hin Ha]; intros Hnone; [exact Hnone|].
  apply IH. intros [|fuel]; [reflexivity|].
  simpl. replace (p0 + 8 <=? Z.of_nat (List.length head)) with true
    by (symmetry; apply Z.leb_le; lia).
  rewrite Ha. apply Hnone.
Qed.

(** X14: a chunk whose size field reads -8 or -9 (the bytes F8 FF FF FF or
    F7 FF FF FF) has a computed length of 0, so the loop of
    [isAnimatedWebP] does not move past it.  In a head with the "RIFF" and
    "WEBP" marks, once the loop comes to such a chunk that does not mark
    animation, no number of tests of its condition is enough: the function
    does not return. *)
Theorem webp_scan_never_ends (head : list Byte.byte) (p : Z) :
  Avatar.textFrom head 0 4 = Avatar.RIFF ->
  Avatar.textFrom head 8 4 = Avatar.WEBP ->
  Avatar.visits head p ->
  p + 8 <= Z.of_nat (List.length head) ->
  Avatar.marksAnimation head p = false ->
  Avatar.readU32LE head (p + 4) = -8 \/ Avatar.readU32LE head (p + 4) = -9 ->
  forall fuel, Avatar.isAnimatedWebP fuel head = None.
Proof.
  intros HR HW Hv Hin Ha Hsize fuel. unfold Avatar.isAnimatedWebP.
  rewrite HR, HW.
  replace (Avatar.sameString Avatar.RIFF Avatar.RIFF) with true by reflexivity.
  replace (Avatar.sameString Avatar.WEBP Avatar.WEBP) with true by reflexivity.
  cbn [negb]. apply (scan_through head p Hv).
  apply scan_stuck; [exact Hin | exact Ha | now apply chunkLen_zero].
Qed.

Lemma scan_yes (head : list Byte.byte) (fuel : nat) (p : Z) :
  Avatar.visits head p ->
  Avatar.scanChunks fuel head p = Some true ->
  exists q, Avatar.visits head q /\ q + 8 <= Z.of_nat (List.length head) /\
            Avatar.marksAnimation head q = true.
Proof.
  revert p. induction fuel as [|fuel IH]; intros p Hv H; [discriminate|].
  simpl in H.
  destruct (Z.leb_spec (p + 8) (Z.of_nat (List.length head))) as [Hin|Hout];
    [|discriminate].
  destruct (Avatar.marksAnimation head p) eqn:Ea.
  - now exists p.
  - apply (IH (p + Avatar.chunkLen head p)); [|exact H].
    now apply Avatar.visits_next.
Qed.

Lemma marksAnimation_spec (head : list Byte.byte) (q : Z) :
  Avatar.marksAnimation head q = true ->
  (Avatar.textFrom head q 4 = Avatar.VP8X /\
   Avatar.bitAnd (Avatar.operand (Avatar.at_index head (q + 8))) 2 <> 0) \/
  Avatar.textFrom head q 4 = Avatar.ANIM \/
  Avatar.textFrom head q 4 = Avatar.ANMF.
Proof.
  unfold Avatar.marksAnimation. cbv zeta. intros H.
  apply orb_true_iff in H as [H | H]; [apply orb_true_iff in H as [H | H]|].
  - apply andb_true_iff in H as [H1 H2]. left. split; [now apply sameString_eq|].
    apply negb_true_iff, Z.eqb_neq in H2. exact H2.
  - right; left. now apply sameString_eq.
  - right; right. now apply sameString_eq.
Qed.

(** With sizes that are sizes the loop only moves forward from 12. *)
Lemma visits_from_12 (head : list Byte.byte) (q : Z) :
  (forall p,
     Avatar.visits head p -> p + 8 <= Z.of_nat (List.length head) ->
     Avatar.marksAnimation head p = false ->
     0 <= Avatar.readU32LE head (p + 4) <= 2 ^ 31 - 2) ->
  Avatar.visits head q -> 12 <= q.
Proof.
  intros Hsane. induction 1 as [|p Hv IH Hin Ha]; [lia|].
  pose proof (chunkLen_advances head p (Hsane p Hv Hin Ha)). lia.
Qed.

(** The loop comes to two positions in the head [backwards]: 12, and from
    there -12. *)
Lemma backwards_visits (p : Z) :
  Avatar.visits SampleHeads.backwards p -> p = 12 \/ p = -12.
Proof.
  induction 1 as [|p0 _ IH _ Ha]; [now left|].
  destruct IH as [-> | ->]; [right; reflexivity|].
  vm_compute in Ha. discriminate.
Qed.

(** X15: the PNG and WebP checks say yes only behind the marks of the
    format.  [isAnimatedPNG] says yes exactly when the head starts with the
    eight bytes of the PNG signature and its text contains "acTL".
    [isAnimatedWebP] says yes only when the head has "RIFF" at 0 and "WEBP"
    at 8 and the loop came to a position [q] with [q + 8] within the length
    of the head where the four characters [slice] gives from [q] on are
    "VP8X" with the bit 2 set in the byte at [q + 8], or "ANIM", or "ANMF".
    That position is 12 or more, a chunk header inside the head, when every
    size field the loop reads is between 0 and 2^31 - 2.  It need not be
    otherwise: on the head [backwards], whose first size field reads -32,
    the function says yes and the only position that marks animation is
    -12, before the start of the head, from where [slice] counts from the
    end. *)
Theorem animated_only_behind_signature
    (decode : list Byte.byte -> jsstring) (head : list Byte.byte) (fuel : nat) :
  (Avatar.isAnimatedPNG decode head = true <->
   firstn 8 (map Byte.to_N head) = Avatar.pngSignature /\
   occurs_in Avatar.acTL (decode head)) /\
  (Avatar.isAnimatedWebP fuel head = Some true ->
   firstn 4 (map Byte.to_N head) = Avatar.RIFF /\
   firstn 4 (skipn 8 (map Byte.to_N head)) = Avatar.WEBP /\
   exists q, Avatar.visits head q /\ q + 8 <= Z.of_nat (List.length head) /\
             Avatar.marksAnimation head q = true /\
             ((Avatar.textFrom head q 4 = Avatar.VP8X /\
               Avatar.bitAnd (Avatar.operand (Avatar.at_index head (q + 8))) 2 <> 0) \/
              Avatar.textFrom head q 4 = Avatar.ANIM \/
              Avatar.textFrom head q 4 = Avatar.ANMF) /\
             ((forall p,
                 Avatar.visits head p -> p + 8 <= Z.of_nat (List.length head) ->
                 Avatar.marksAnimation head p = false ->
                 0 <= Avatar.readU32LE head (p + 4) <= 2 ^ 31 - 2) ->
              12 <= q)) /\
  (Avatar.isAnimatedWebP 2 SampleHeads.backwards = Some true /\
   forall q, Avatar.visits SampleHeads.backwards q ->
             Avatar.marksAnimation SampleHeads.backwards q = true -> q = -12).
Proof.
  split; [|split].
  - unfold Avatar.isAnimatedPNG.
    pose proof (signatureFrom_spec head 0 Avatar.pngSignature) as Hs.
    change (Z.of_nat 0) with 0 in Hs. cbn [skipn] in Hs.
    change (List.length Avatar.pngSignature) with 8%nat in Hs.
    destruct (Avatar.signatureFrom head 0 Avatar.pngSignature).
    + rewrite includes_spec. split; [intros H; split; [now apply Hs | exact H] | tauto].
    + split; [discriminate | intros [H _]; apply Hs in H; discriminate].
  - unfold Avatar.isAnimatedWebP.
    rewrite (textFrom_start head 4), (textFrom_at head 8 4) by lia.
    change (Z.to_nat 4) with 4%nat. change (Z.to_nat 8) with 8%nat.
    destruct (Avatar.sameString (firstn 4 (map Byte.to_N head)) Avatar.RIFF) eqn:ER;
      cbn [negb]; [|discriminate].
    destruct (Avatar.sameString (firstn 4 (skipn 8 (map Byte.to_N head))) Avatar.WEBP)
      eqn:EW; cbn [negb]; [|discriminate].
    apply sameString_eq in ER, EW. intros H.
    split; [exact ER | split; [exact EW|]].
    destruct (scan_yes head fuel 12 (Avatar.visits_first head) H) as (q & Hv & Hin & Hm).
    exists q. split; [exact Hv|]. split; [exact Hin|]. split; [exact Hm|].
    split; [now apply marksAnimation_spec|].
    intros Hsane. exact (visits_from_12 head q Hsane Hv).
  - split; [reflexivity|]. intros q Hv Hm.
    destruct (backwards_visits q Hv) as [-> | ->]; [|reflexivity].
    vm_compute in Hm. discriminate.
Qed.

(** A size field that reads -32 moves the loop from 12 back to -12, before
    the start of the head; there [slice] counts from the end and finds the
    bytes at 20, "ANIM", and the function says yes: the only position that
    marks animation is a negative one. *)
Example header_read_from_the_end :
  Avatar.isAnimatedWebP 2 SampleHeads.backwards = Some true /\
  Avatar.marksAnimation SampleHeads.backwards 12 = false /\
  Avatar.readU32LE SampleHeads.backwards (12 + 4) = -32 /\
  12 + Avatar.chunkLen SampleHeads.backwards 12 = -12 /\
  Avatar.textFrom SampleHeads.backwards (-12) 4 = Avatar.ANIM.
Proof. repeat split. Qed.

(** ** The further properties on the sample data *)

Lemma pages_cover_the_list_witness :
  1 <= 2 /\
  exists pages,
    Page.totalPages (makeSelectPaginated Sample.roster (Int 1) (Int 2)) = Int pages /\
    1 <= pages /\
    List.concat
      (map (fun i => Page.data (makeSelectPaginated Sample.roster (Int (Z.of_nat i)) (Int 2)))
           (seq 1 (Z.to_nat pages))) = Sample.roster.
Proof. split; [lia | apply pages_cover_the_list; lia]. Defined.

Lemma page_lengths_witness :
  1 <= 2 /\
  exists current pages,
    Page.currentPage (makeSelectPaginated Sample.roster (Int 9) (Int 2)) = Int current /\
    Page.totalPages (makeSelectPaginated Sample.roster (Int 9) (Int 2)) = Int pages /\
    1 <= current <= pages.
Proof.
  split; [lia|].
  destruct (page_lengths Sample.roster 9 2 ltac:(lia)) as (c & t & H1 & H2 & H3 & _).
  exists c, t. auto.
Defined.

Lemma rank_is_position_witness :
  1 <= 2 /\
  nth_error (Page.data (makeSelectPaginated Sample.roster (Int 2) (Int 2))) 1 =
    Some Sample.idle /\
  exists rank,
    Dashboard.cardRank
      (Page.currentPage (makeSelectPaginated Sample.roster (Int 2) (Int 2)))
      (Int 2) (Z.of_nat 1) = Int rank /\
    Dashboard.tableRank
      (Dashboard.pageRankOffset
         (Page.currentPage (makeSelectPaginated Sample.roster (Int 2) (Int 2))) (Int 2))
      (Z.of_nat 1) = Int rank /\
    1 <= rank <= Z.of_nat (List.length Sample.roster) /\
    nth_error Sample.roster (Z.to_nat (rank - 1)) = Some Sample.idle.
Proof.
  split; [lia|]. split; [reflexivity|].
  apply (rank_is_position Sample.roster 2 2 1 Sample.idle); [lia | reflexivity].
Defined.

Lemma sort_after_filter_is_filter_after_sort_witness :
  consistent Sample.compareUnits /\
  selectSorted Sample.lower Sample.compareUnits Sample.roster Sample.padded_query
    "nameAsc" false =
  makeSelectFiltered Sample.lower
    (makeSelectSorted Sample.compareUnits Sample.roster "nameAsc")
    Sample.padded_query false.
Proof.
  split; [exact compareUnits_consistent|].
  apply (sort_after_filter_is_filter_after_sort Sample.lower Sample.compareUnits
           compareUnits_consistent).
Defined.


Lemma team_counts_nonneg : Forall counts_nonneg Sample.team.
Proof. repeat constructor; simpl; lia. Qed.

Lemma aggregates_ignore_order_witness :
  Permutation Sample.team (rev Sample.team) /\
  Forall counts_nonneg Sample.team /\
  sum_of completedTasks Sample.team + sum_of inWorkTasks Sample.team
    + sum_of failedTasks Sample.team < 2 ^ 53 /\
  Kpis.doneRate (selectGlobalKpis Sample.compareUnits Sample.team) =
  Kpis.doneRate (selectGlobalKpis Sample.compareUnits (rev Sample.team)).
Proof.
  split; [apply Permutation_rev|]. split; [exact team_counts_nonneg|].
  split; [reflexivity|].
  apply (aggregates_ignore_order Sample.compareUnits Sample.team (rev Sample.team)
           (Permutation_rev Sample.team) team_counts_nonneg eq_refl).
Defined.

Lemma last_snapshot_is_kept_witness :
  forallb (fun a => negb (Statistics.replacesSnapshot unit a))
    [Statistics.setSortMode unit "nameAsc"; Statistics.fetchGlobal_pending unit;
     Statistics.fetchMy_rejected unit None] = true /\
  Statistics.selectGlobal unit
    (Statistics.run unit None (Statistics.initialState unit None)
       (Statistics.fetchGlobal_fulfilled unit Sample.team
          :: [Statistics.setSortMode unit "nameAsc"; Statistics.fetchGlobal_pending unit;
              Statistics.fetchMy_rejected unit None])) = Sample.team.
Proof.
  split; [reflexivity|].
  apply (last_snapshot_is_kept unit None (Statistics.initialState unit None)
           Sample.team); reflexivity.
Defined.

Lemma error_is_kept_witness :
  Statistics.error unit
    (Statistics.reducer unit None (Statistics.initialState unit None)
       (Statistics.fetchGlobal_rejected unit None)) = Some Statistics.unknownError /\
  forallb (fun a => negb (Statistics.touchesError unit a))
    [Statistics.fetchGlobal_fulfilled unit Sample.team;
     Statistics.fetchMy_rejected unit (Some Sample.ver)] = true /\
  Statistics.error unit
    (Statistics.run unit None
       (Statistics.reducer unit None (Statistics.initialState unit None)
          (Statistics.fetchGlobal_rejected unit None))
       [Statistics.fetchGlobal_fulfilled unit Sample.team;
        Statistics.fetchMy_rejected unit (Some Sample.ver)]) =
  Some Statistics.unknownError.
Proof.
  split; [reflexivity|]. split; [reflexivity|].
  apply (error_is_kept unit None); reflexivity.
Defined.

Lemma still_visits (p : Z) :
  Avatar.visits SampleHeads.still p -> p = 12 \/ 20 <= p.
Proof.
  induction 1 as [|p0 _ IH Hin _]; [now left|].
  destruct IH as [-> | Hge]; [right; vm_compute; discriminate|].
  change (Z.of_nat (List.length SampleHeads.still)) with 20 in Hin. lia.
Qed.

Lemma still_sizes_sane (p : Z) :
  Avatar.visits SampleHeads.still p ->
  p + 8 <= Z.of_nat (List.length SampleHeads.still) ->
  Avatar.marksAnimation SampleHeads.still p = false ->
  0 <= Avatar.readU32LE SampleHeads.still (p + 4) <= 2 ^ 31 - 2.
Proof.
  intros Hv Hin _. change (Z.of_nat (List.length SampleHeads.still)) with 20 in Hin.
  destruct (still_visits p Hv) as [-> | Hge]; [|lia].
  vm_compute. split; discriminate.
Qed.

Lemma webp_scan_ends_witness :
  (forall p,
     Avatar.visits SampleHeads.still p ->
     p + 8 <= Z.of_nat (List.length SampleHeads.still) ->
     Avatar.marksAnimation SampleHeads.still p = false ->
     0 <= Avatar.readU32LE SampleHeads.still (p + 4) <= 2 ^ 31 - 2) /\
  exists answer,
    forall fuel, (List.length SampleHeads.still < fuel)%nat ->
                 Avatar.isAnimatedWebP fuel SampleHeads.still = Some answer.
Proof.
  split; [exact still_sizes_sane|].
  apply (webp_scan_ends SampleHeads.still still_sizes_sane).
Defined.

Lemma webp_scan_never_ends_witness :
  Avatar.textFrom SampleHeads.looping 0 4 = Avatar.RIFF /\
  Avatar.textFrom SampleHeads.looping 8 4 = Avatar.WEBP /\
  Avatar.visits SampleHeads.looping 12 /\
  12 + 8 <= Z.of_nat (List.length SampleHeads.looping) /\
  Avatar.marksAnimation SampleHeads.looping 12 = false /\
  Avatar.readU32LE SampleHeads.looping (12 + 4) = -8 /\
  Avatar.isAnimatedWebP 1000 SampleHeads.looping = None.
Proof.
  split; [reflexivity|]. split; [reflexivity|]. split; [constructor|].
  split; [simpl; lia|]. split; [reflexivity|]. split; [reflexivity|].
  apply (webp_scan_never_ends SampleHeads.looping 12);
    [reflexivity | reflexivity | constructor | simpl; lia | reflexivity
    | left; reflexivity].
Defined.

Example still_image_is_not_animated :
  Avatar.isAnimatedWebP 2 SampleHeads.still = Some false /\
  Avatar.chunkLen SampleHeads.still 12 = 8.
Proof. split; reflexivity. Qed.

(** ** The order of arrival and the sorted view *)
Section ArrivalOrder.
Context {A : Type}.
Variable cmp : A -> A -> Z.
Hypothesis cmp_consistent : consistent cmp.

Lemma single_tie_without_ties (z : A) (l : list A) :
  ForallOrdPairs (fun a b => cmp a b <> 0) l ->
  (List.length (filter (tie cmp z) l) <= 1)%nat.
Proof.
  induction 1 as [|a t Hall _ IH]; simpl; [lia|].
  destruct (tie cmp z a) eqn:Ea; [|exact IH].
  replace (filter (tie cmp z) t) with (@nil A); [simpl; lia|].
  symmetry. clear IH. induction Hall as [|b t Hb _ IHt]; [reflexivity|].
  simpl. destruct (tie cmp z b) eqn:Eb; [|exact IHt].
  elim Hb. exact (tie_trans cmp cmp_consistent z a b Ea Eb).
Qed.

Lemma sort_ignores_arrival (l l' : list A) :
  Permutation l l' ->
  ForallOrdPairs (fun a b => cmp a b <> 0) l ->
  JsArray.sort cmp l' = JsArray.sort cmp l.
Proof.
  intros HP Hno. apply (sort_unique cmp cmp_consistent).
  - apply sort_ordered, cmp_consistent.
  - intros z. rewrite (sort_keeps_ties cmp cmp_consistent l' z).
    pose proof (single_tie_without_ties z l Hno) as Hlen.
    pose proof (filter_permutation (tie cmp z) _ _ HP) as HF.
    destruct (filter (tie cmp z) l) as [|a [|b t]]; simpl in Hlen; try lia.
    + now apply Permutation_nil in HF.
    + now apply Permutation_length_1_inv in HF.
Qed.

End ArrivalOrder.

Section Reproducible.
Variable toLowerCase : jsstring -> jsstring.
Variable collator_compare : jsstring -> jsstring -> Z.
Hypothesis collator_consistent : consistent collator_compare.

Lemma or_else_second (x y : Z) : or_else x y = 0 -> y = 0.
Proof. unfold or_else. destruct (Z.eqb_spec x 0); lia. Qed.

Lemma names_apart_no_ties
    (cmp : UserStatistic -> UserStatistic -> Z) (X : list UserStatistic) :
  cmp = byCompletedDesc collator_compare \/ cmp = byFailedDesc collator_compare \/
  cmp = byInWorkDesc collator_compare \/ cmp = byNameAsc collator_compare ->
  ForallOrdPairs (fun a b => collator_compare (name a) (name b) <> 0) X ->
  ForallOrdPairs (fun a b => cmp a b <> 0) X.
Proof.
  intros Hcmp Hno. induction Hno as [|a t Hall _ IH]; constructor; [|exact IH].
  eapply Forall_impl; [|exact Hall]. intros b Hb E. apply Hb.
  destruct Hcmp as [-> | [-> | [-> | ->]]];
    unfold byCompletedDesc, byFailedDesc, byInWorkDesc, byNameAsc in E;
    try exact E; exact (or_else_second _ _ E).
Qed.

(** X16: when no two records have names that the collation ranks equal,
    the sorted view does not depend on the order in which the records
    arrive: every rearrangement of the store gives the same sorted list, in
    every mode. *)
Theorem sorted_view_ignores_arrival
    (X Y : list UserStatistic) (sortMode : string) :
  Permutation X Y ->
  ForallOrdPairs (fun a b => collator_compare (name a) (name b) <> 0) X ->
  makeSelectSorted collator_compare Y sortMode =
  makeSelectSorted collator_compare X sortMode.
Proof.
  intros HP Hno.
  destruct (sorted_by_cases collator_compare X sortMode) as (cmp & -> & Hcmp & Hall).
  rewrite Hall. apply sort_ignores_arrival; [| exact HP |].
  - now apply (stage_comparator_consistent collator_compare).
  - now apply names_apart_no_ties.
Qed.

Lemma occurs_in_trans (a b s : jsstring) :
  occurs_in a b -> occurs_in b s -> occurs_in a s.
Proof.
  intros (p1 & q1 & ->) (p2 & q2 & ->).
  exists (p2 ++ p1), (q1 ++ q2). now rewrite !app_assoc.
Qed.

(** X17: a longer query narrows the result.  When the trimmed, lower-cased
    form of one query occurs in that of another, filtering with the other
    gives what filtering the first result again with it gives: a part of the
    first result, in the same order, and never a longer list. *)
Theorem longer_query_narrows
    (X : list UserStatistic) (query query' : jsstring) (onlyActive : bool) :
  occurs_in (toLowerCase (trim query)) (toLowerCase (trim query')) ->
  makeSelectFiltered toLowerCase X query' onlyActive =
    makeSelectFiltered toLowerCase
      (makeSelectFiltered toLowerCase X query onlyActive) query' onlyActive /\
  (List.length (makeSelectFiltered toLowerCase X query' onlyActive) <=
   List.length (makeSelectFiltered toLowerCase X query onlyActive))%nat.
Proof.
  intros Hq.
  assert (makeSelectFiltered toLowerCase X query' onlyActive =
          makeSelectFiltered toLowerCase
            (makeSelectFiltered toLowerCase X query onlyActive) query' onlyActive) as E.
  { rewrite !filtered_as_filter, filter_twice. apply filter_ext. intros u.
    destruct (includes (toLowerCase (name u)) (toLowerCase (trim query'))) eqn:E';
      [|now rewrite !andb_false_l, andb_false_r].
    assert (includes (toLowerCase (name u)) (toLowerCase (trim query)) = true) as ->.
    { apply includes_spec. apply includes_spec in E'.
      exact (occurs_in_trans _ _ _ Hq E'). }
    cbn [andb]. now destruct (negb onlyActive || isActive u). }
  split; [exact E|]. rewrite E at 1. rewrite (filtered_as_filter toLowerCase
    (makeSelectFiltered toLowerCase X query onlyActive)). apply filter_length_le.
Qed.

End Reproducible.

Lemma team_names_apart :
  ForallOrdPairs
    (fun a b => Sample.compareUnits (name a) (name b) <> 0) Sample.team.
Proof. repeat constructor; discriminate. Qed.

Lemma sorted_view_ignores_arrival_witness :
  consistent Sample.compareUnits /\
  Permutation Sample.team (rev Sample.team) /\
  ForallOrdPairs
    (fun a b => Sample.compareUnits (name a) (name b) <> 0) Sample.team /\
  makeSelectSorted Sample.compareUnits (rev Sample.team) "failedDesc" =
  makeSelectSorted Sample.compareUnits Sample.team "failedDesc".
Proof.
  split; [exact compareUnits_consistent|]. split; [apply Permutation_rev|].
  split; [exact team_names_apart|].
  apply (sorted_view_ignores_arrival Sample.compareUnits compareUnits_consistent
           Sample.team (rev Sample.team) "failedDesc" (Permutation_rev Sample.team)
           team_names_apart).
Defined.

Lemma longer_query_narrows_witness :
  occurs_in (Sample.lower (trim [1077; 1088]%N))
    (Sample.lower (trim Sample.padded_query)) /\
  (List.length (makeSelectFiltered Sample.lower Sample.roster Sample.padded_query false) <=
   List.length (makeSelectFiltered Sample.lower Sample.roster [1077; 1088]%N false))%nat.
Proof.
  split; [exists [1074%N], []; reflexivity|].
  apply (longer_query_narrows Sample.lower Sample.roster [1077; 1088]%N
           Sample.padded_query false).
  exists [1074%N], []; reflexivity.
Defined.
